(** * Master Key: status projection, key-status events and preset insertion

    A shallow embedding of
    - [prettifyPrefix], [enterModalKeys] and the cursor helpers of the tests
      (test/specs/utils.mts),
    - the key status bar module ([updateKeyStatus], [updateConfig],
      [activate]),
    - the preset insertion code of web/keybindings.ts ([replaceAll],
      [formatBindings], [insertKeybindingsIntoConfig], [importBindings]),
    followed by the properties of the specification that concern them. *)

From Stdlib Require Import String Ascii.
From Stdlib Require Import List ZArith NArith Lia Bool.
Import ListNotations.

Local Open Scope Z_scope.

(** ** JavaScript strings

    A JavaScript string is a sequence of UTF-16 code units; [length],
    [slice] and the indices of a regular expression match all count code
    units. *)

Definition jsstring : Type := list N.

(** [js] reads a literal of this file (UTF-8 bytes) as the JavaScript string
    it denotes: one code unit for a character of the basic plane, a surrogate
    pair above it. *)
Fixpoint utf16 (bytes : list N) : jsstring :=
  match bytes with
  | [] => []
  | b0 :: r0 =>
      if (b0 <? 128)%N then b0 :: utf16 r0
      else if (b0 <? 224)%N then
        match r0 with
        | b1 :: r1 =>
            N.lor (N.shiftl (N.land b0 31) 6) (N.land b1 63) :: utf16 r1
        | [] => []
        end
      else if (b0 <? 240)%N then
        match r0 with
        | b1 :: b2 :: r2 =>
            N.lor (N.shiftl (N.land b0 15) 12)
              (N.lor (N.shiftl (N.land b1 63) 6) (N.land b2 63)) :: utf16 r2
        | _ => []
        end
      else
        match r0 with
        | b1 :: b2 :: b3 :: r3 =>
            let cp := N.lor (N.shiftl (N.land b0 7) 18)
                        (N.lor (N.shiftl (N.land b1 63) 12)
                           (N.lor (N.shiftl (N.land b2 63) 6) (N.land b3 63))) in
            let v := (cp - 65536)%N in
            (55296 + N.shiftr v 10)%N :: (56320 + N.land v 1023)%N :: utf16 r3
        | _ => []
        end
  end.

Definition js (s : string) : jsstring :=
  utf16 (map N_of_ascii (list_ascii_of_string s)).

Definition jsstring_eqb (a b : jsstring) : bool :=
  if list_eq_dec N.eq_dec a b then true else false.

(** [s.slice(from, to)] for non-negative arguments. *)
Definition slice (s : jsstring) (from to : nat) : jsstring :=
  firstn (Nat.min to (length s) - from) (skipn from s).

(** [s.slice(from, -1)]: the end is counted from the end of [s]. *)
Definition slice_to_last (s : jsstring) (from : nat) : jsstring :=
  slice s from (length s - 1).

(** *** Numbers

    A JavaScript number is a double. The numbers of this program ([count],
    the generation counter, the delays, the coordinates) are integers, and an
    integer is a double when it has at most 53 significant bits; every
    integer of absolute value up to 2^53 is one. *)

Definition MAX_SAFE_INTEGER : Z := 2 ^ 53 - 1.
Definition MIN_SAFE_INTEGER : Z := - (2 ^ 53 - 1).

(** The double nearest to an integer and, of two that are as near, the one
    with the even significand. The sum and the product of two doubles are
    this double of the exact sum and product (below 2^1024, where the finite
    doubles end). *)
Definition toDouble (n : Z) : Z :=
  let a := Z.abs n in
  let e := Z.log2 a - 52 in
  if e <=? 0 then n
  else
    let q := a / 2 ^ e in
    let r := a mod 2 ^ e in
    let half := 2 ^ (e - 1) in
    let q := if r <? half then q
             else if half <? r then q + 1
             else if Z.even q then q else q + 1 in
    Z.sgn n * (q * 2 ^ e).

(** *** Number to string

    The decimal digits of an integer, with a minus sign when it is negative:
    what the host's conversion of a number to a string gives for an integer
    of absolute value up to 2^53. For a larger number the host gives the
    shortest digits that read back as the same double, or an exponent form,
    and which digits is in part its own choice: the code below takes the
    host's conversion as a parameter, [Number_toString]. *)

Definition digitChar (d : Z) : N := (48 + Z.to_N d)%N.

Fixpoint digits_fuel (fuel : nat) (n : Z) : jsstring :=
  match fuel with
  | O => []
  | S f =>
      if n <? 10 then [digitChar n]
      else digits_fuel f (n / 10) ++ [digitChar (n mod 10)]
  end.

Definition digits (n : Z) : jsstring :=
  digits_fuel (S (Z.to_nat (Z.log2 n))) n.

Definition decimal (n : Z) : jsstring :=
  if n <? 0 then 45%N :: digits (- n) else digits n.

(** *** Letter case

    [asciiUpper] is what [toUpperCase] does to a code unit of the ASCII
    range, and the canonical form that a regular expression with the [i]
    flag (and no [u] flag) compares: a code unit outside ASCII is never
    identified with an ASCII letter there. *)

Definition asciiUpper (c : N) : N :=
  if ((97 <=? c) && (c <=? 122))%N then (c - 32)%N else c.

Definition isAscii (c : N) : bool := (c <? 128)%N.

(** Host functions that the code calls and whose full definition is the
    Unicode standard's. *)
Definition asciiToUpperCase (s : jsstring) : jsstring := map asciiUpper s.

Definition asciiLower (c : N) : N :=
  if ((65 <=? c) && (c <=? 90))%N then (c + 32)%N else c.

Definition asciiToLowerCase (s : jsstring) : jsstring := map asciiLower s.

(** *** [String.prototype.replace] with a global regular expression

    [matchHere rest] is the length of the match of the pattern at the start
    of [rest], the remainder of the subject; the patterns of [prettifyPrefix]
    look at nothing before the match. Matches are found left to right and do
    not overlap; what lies between them is kept; after an empty match the
    search moves on by one code unit. [skip] counts the code units of the
    current match still to be dropped. *)
Fixpoint replaceMatches (matchHere : jsstring -> option nat)
    (replacement : jsstring) (skip : nat) (s : jsstring) : jsstring :=
  match s with
  | [] =>
      match skip, matchHere [] with
      | O, Some _ => replacement
      | _, _ => []
      end
  | c :: s' =>
      match skip with
      | S k => replaceMatches matchHere replacement k s'
      | O =>
          match matchHere s with
          | Some (S k) =>
              replacement ++ replaceMatches matchHere replacement k s'
          | Some O =>
              replacement ++ c :: replaceMatches matchHere replacement 0 s'
          | None => c :: replaceMatches matchHere replacement 0 s'
          end
      end
  end.

(** The pattern text [tok], compared without regard to case, at the start of
    [s]: what follows it. *)
Fixpoint stripPrefix_i (tok s : jsstring) : option jsstring :=
  match tok with
  | [] => Some s
  | t :: tok' =>
      match s with
      | [] => None
      | c :: s' =>
          if (asciiUpper c =? asciiUpper t)%N then stripPrefix_i tok' s'
          else None
      end
  end.

(** [/tok(\+|$)/gi]: the token, then a plus sign, or else the end of the
    subject. *)
Definition modifierRegex (tok : jsstring) (rest : jsstring) : option nat :=
  match stripPrefix_i tok rest with
  | Some (c :: _) => if (c =? 43)%N then Some (S (length tok)) else None
  | Some [] => Some (length tok)
  | None => None
  end.

(** [/tok/gi] *)
Definition wordRegex (tok : jsstring) (rest : jsstring) : option nat :=
  match stripPrefix_i tok rest with
  | Some _ => Some (length tok)
  | None => None
  end.

Definition String_replace (matchHere : jsstring -> option nat)
    (replacement : jsstring) (s : jsstring) : jsstring :=
  replaceMatches matchHere replacement 0 s.

(** ** test/specs/utils.mts *)

(** [string | string[]]: the [key] of a [ModalKeySpec], and an entry of a key
    sequence that is given without a specification. *)
Inductive Keys :=
| OneKey (k : jsstring)
| KeyArray (ks : list jsstring).

Record ModalKeySpec := {
  key : Keys;
  count : option Z;
  updatesStatus : option bool }.

(** [type ModalKey = string | string[] | ModalKeySpec] *)
Inductive ModalKey :=
| Plain (k : Keys)
| Spec (spec : ModalKeySpec).

(** The test [(key as ModalKeySpec).key] of the three accessors: a string
    and an array have no property of that name; of the keys of a
    specification an array is truthy and the empty string is the one string
    that is falsy. The specification is given back when the test holds. *)
Definition withKey (key_ : ModalKey) : option ModalKeySpec :=
  match key_ with
  | Spec spec =>
      match key spec with
      | OneKey [] => None
      | _ => Some spec
      end
  | Plain _ => None
  end.

(** An element of the array that [modalKeyToStringArray] returns: a string,
    or a specification, which the cast lets through when its key is
    falsy. *)
Inductive Element :=
| Str (s : jsstring)
| Obj (spec : ModalKeySpec).

Definition modalKeyToStringArray (key_ : ModalKey) : list Element :=
  let simpleKey :=
    match withKey key_ with
    | Some spec => Plain (key spec)
    | None => key_
    end in
  match simpleKey with
  | Plain (KeyArray ks) => map Str ks
  | Plain (OneKey k) => [Str k]
  | Spec spec => [Obj spec]
  end.

Definition modalKeyCount (key_ : ModalKey) : option Z :=
  match withKey key_ with
  | Some spec => count spec
  | None => None
  end.

Definition modalKeyUpdateStatus (key_ : ModalKey) : bool :=
  match withKey key_ with
  | Some spec =>
      match updatesStatus spec with
      | None => true
      | Some update => update
      end
  | None => true
  end.

(** The strings of an array when every element is one. A call of
    [x.toLowerCase()] on an element that is not a string throws a
    [TypeError]. *)
Fixpoint strings (keys : list Element) : option (list jsstring) :=
  match keys with
  | [] => Some []
  | Str s :: rest =>
      match strings rest with
      | Some ss => Some (s :: ss)
      | None => None
      end
  | Obj _ :: _ => None
  end.

(** What [enterModalKeys] asks of the browser, in the order it asks. *)
Inductive Action :=
| keys_sent (keyCodes : list jsstring)
| waited (label : jsstring).

Definition isWaited (a : Action) : bool :=
  match a with
  | waited _ => true
  | keys_sent _ => false
  end.

(** What [enterModalKeys] throws: its own error (the keys must all be lower
    case), the [TypeError] of a call of [toLowerCase] on what is not a
    string, and the error of a [waitUntil] whose time is out before the
    status bar has the item with the label. *)
Inductive Thrown :=
| KeysNotLowerCase
| NotAFunction
| TimedOut (label : jsstring).

(** The variables of [enterModalKeys] that live across the iterations of its
    loop, and what it has asked of the browser so far. *)
Record EnterState := {
  e_count : Z;
  e_keySeqString : jsstring;
  e_checkCleared : bool;
  e_log : list Action }.

Section Utils.

(** The conversion of a number to a string, [String.prototype.toUpperCase]
    and [toLowerCase] of the host. *)
Variable Number_toString : Z -> jsstring.
Variable toUpperCase : jsstring -> jsstring.
Variable toLowerCase : jsstring -> jsstring.

(** The table [MODAL_KEY_MAP], as a lookup; its values are key codes of the
    test driver, which is not among the sources. *)
Variable MODAL_KEY_MAP : jsstring -> option jsstring.

(** The status bar of the editor under test: whether, after what has been
    asked of the browser so far, [statusBar.getItem(label)] comes to answer
    with an item before the time of a [waitUntil] is out. *)
Variable statusBar_getItem : list Action -> jsstring -> bool.

Definition prettifyPrefix (str : jsstring) : jsstring :=
  let str := toUpperCase str in
  let str := String_replace (modifierRegex (js "shift")) (js "⇧") str in
  let str := String_replace (modifierRegex (js "ctrl")) (js "^") str in
  let str := String_replace (modifierRegex (js "alt")) (js "⌥") str in
  let str := String_replace (modifierRegex (js "meta")) (js "◆") str in
  let str := String_replace (modifierRegex (js "win")) (js "⊞") str in
  let str := String_replace (modifierRegex (js "cmd")) (js "⌘") str in
  let str := String_replace (wordRegex (js "escape")) (js "ESC") str in
  str.

(** [(count ? count + "× " : '')] *)
Definition countPrefix (count : Z) : jsstring :=
  if count =? 0 then [] else Number_toString count ++ js "× ".

(** [await browser.waitUntil(() => statusBar.getItem(label), ...)] followed
    by the [expect] of its result, which is truthy when the wait returns. *)
Definition waitUntil (st : EnterState) (label : jsstring)
  : EnterState + Thrown :=
  if statusBar_getItem (e_log st) label
  then inl {| e_count := e_count st; e_keySeqString := e_keySeqString st;
              e_checkCleared := e_checkCleared st;
              e_log := e_log st ++ [waited label] |}
  else inr (TimedOut label).

(** One iteration of the loop of [enterModalKeys]. *)
Definition enterModalKeys_step (st : EnterState) (keys_ : ModalKey)
  : EnterState + Thrown :=
  let keys := modalKeyToStringArray keys_ in
  match strings keys with
  | None => inr NotAFunction
  | Some keys =>
      if negb (if list_eq_dec (list_eq_dec N.eq_dec) (map toLowerCase keys) keys
               then true else false)
      then inr KeysNotLowerCase
      else
        let keyCodes :=
          map (fun k => match MODAL_KEY_MAP k with
                        | Some code => code
                        | None => k
                        end) keys in
        let keyCount := modalKeyCount keys_ in
        let count :=
          match keyCount with
          | None => e_count st
          | Some keyCount => toDouble (toDouble (e_count st * 10) + keyCount)
          end in
        let keySeqString :=
          match keyCount with
          | None =>
              let keyString := concat (map prettifyPrefix keys) in
              match e_keySeqString st with
              | [] => keyString
              | _ :: _ => e_keySeqString st ++ js ", " ++ keyString
              end
          | Some _ => e_keySeqString st
          end in
        let currentKeySeqString := countPrefix count ++ keySeqString in
        let sent := e_log st ++ [keys_sent keyCodes] in
        if modalKeyUpdateStatus keys_ then
          waitUntil {| e_count := count; e_keySeqString := keySeqString;
                       e_checkCleared := true; e_log := sent |}
            (js "Keys Typed: " ++ currentKeySeqString)
        else
          inl {| e_count := count; e_keySeqString := keySeqString;
                 e_checkCleared := false; e_log := sent |}
  end.

Fixpoint enterModalKeys_loop (st : EnterState) (keySeq : list ModalKey)
  : EnterState + Thrown :=
  match keySeq with
  | [] => inl st
  | keys_ :: rest =>
      match enterModalKeys_step st keys_ with
      | inl st => enterModalKeys_loop st rest
      | inr e => inr e
      end
  end.

(** [enterModalKeys]: the state it ends with, or what it throws. *)
Definition enterModalKeys (keySeq : list ModalKey) : EnterState + Thrown :=
  match waitUntil {| e_count := 0; e_keySeqString := [];
                     e_checkCleared := true; e_log := [] |}
          (js "No Keys Typed") with
  | inl st =>
      match enterModalKeys_loop st keySeq with
      | inl st =>
          if e_checkCleared st then waitUntil st (js "No Keys Typed")
          else inl st
      | inr e => inr e
      end
  | inr e => inr e
  end.

End Utils.

(** ** The key status bar module *)

Record StatusBarItem := {
  text : jsstring;
  accessibilityInformation : jsstring (* its label *) }.

(** The immutable map handed to a state listener, at the two keys
    [updateKeyStatus] reads, with the types its casts give them. *)
Record Values := {
  COUNT : option Z;
  PREFIX : option jsstring }.

(** A callback handed to [setTimeout] by [updateKeyStatus], with the
    variables it closes over and its delay. *)
Record Timeout := {
  currentUpdate : Z;
  t_plannedUpdate : jsstring;
  ms : Z }.

Record ConfigurationChangeEvent := {
  affectsConfiguration : string -> bool }.

(** The configuration store of the host: section, then key. *)
Definition Configuration : Type := string -> string -> option Z.

(** The module's variables, the timers it has pending, and what it reads
    from its collaborators: the configuration store and the key state. *)
Record World := {
  keyStatusBar : option StatusBarItem;
  keyDisplayDelay : Z;
  statusUpdates : Z;
  timeouts : list Timeout;
  configuration : Configuration;
  state : Values }.

Definition set_keyStatusBar (b : option StatusBarItem) (w : World) : World :=
  {| keyStatusBar := b; keyDisplayDelay := keyDisplayDelay w;
     statusUpdates := statusUpdates w; timeouts := timeouts w;
     configuration := configuration w; state := state w |}.

Definition set_keyDisplayDelay (d : Z) (w : World) : World :=
  {| keyStatusBar := keyStatusBar w; keyDisplayDelay := d;
     statusUpdates := statusUpdates w; timeouts := timeouts w;
     configuration := configuration w; state := state w |}.

Definition set_statusUpdates (n : Z) (w : World) : World :=
  {| keyStatusBar := keyStatusBar w; keyDisplayDelay := keyDisplayDelay w;
     statusUpdates := n; timeouts := timeouts w;
     configuration := configuration w; state := state w |}.

Definition set_timeouts (ts : list Timeout) (w : World) : World :=
  {| keyStatusBar := keyStatusBar w; keyDisplayDelay := keyDisplayDelay w;
     statusUpdates := statusUpdates w; timeouts := ts;
     configuration := configuration w; state := state w |}.

Definition set_configuration (c : Configuration) (w : World) : World :=
  {| keyStatusBar := keyStatusBar w; keyDisplayDelay := keyDisplayDelay w;
     statusUpdates := statusUpdates w; timeouts := timeouts w;
     configuration := c; state := state w |}.

Definition set_state (v : Values) (w : World) : World :=
  {| keyStatusBar := keyStatusBar w; keyDisplayDelay := keyDisplayDelay w;
     statusUpdates := statusUpdates w; timeouts := timeouts w;
     configuration := configuration w; state := v |}.

(** What the world receives from outside. *)
Inductive Event :=
| Activate
| StateSet (values : Values)
| ConfigurationChanged (store : Configuration) (event : ConfigurationChangeEvent)
| TimeoutFired (i : nat).

Section KeyStatus.

(** The conversion of a number to a string of the host. *)
Variable Number_toString : Z -> jsstring.

(** [prettifyPrefix], imported from '../utils', a module that is not among
    the sources. *)
Variable utils_prettifyPrefix : jsstring -> jsstring.

(** [process.env.TESTING] *)
Variable TESTING : bool.

Definition KEY_DISPLAY_DELAY_DEFAULT : Z := if TESTING then 100 else 500.

(** The value of the local [plannedUpdate] of [updateKeyStatus]: the status
    projection of the key state. *)
Definition plannedUpdate (values : Values) : jsstring :=
  let count := match COUNT values with Some c => c | None => 0 end in
  let plannedUpdate :=
    if count =? 0 then [] else Number_toString count ++ js "× " in
  plannedUpdate
    ++ utils_prettifyPrefix
         (match PREFIX values with Some p => p | None => [] end).

Definition updateKeyStatus (values : Values) (w : World) : bool * World :=
  match keyStatusBar w with
  | Some _ =>
      if keyDisplayDelay w >? 0 then
        let plannedUpdate := plannedUpdate values in
        if (0 <? length plannedUpdate)%nat then
          (true,
           set_keyStatusBar
             (Some {| text := plannedUpdate;
                      accessibilityInformation :=
                        js "Keys Typed: " ++ plannedUpdate |}) w)
        else
          let currentUpdate := statusUpdates w in
          (true,
           set_timeouts
             (timeouts w ++
                [{| currentUpdate := currentUpdate;
                    t_plannedUpdate := plannedUpdate;
                    ms := keyDisplayDelay w |}]) w)
      else (true, w)
  | None => (true, w)
  end.

(** The body of the callback given to [setTimeout]. *)
Definition clearCallback (t : Timeout) (w : World) : World :=
  if currentUpdate t =? statusUpdates w then
    let w :=
      if statusUpdates w <? MAX_SAFE_INTEGER
      then set_statusUpdates (statusUpdates w + 1) w
      else set_statusUpdates MIN_SAFE_INTEGER w in
    match keyStatusBar w with
    | Some _ =>
        set_keyStatusBar
          (Some {| text := t_plannedUpdate t;
                   accessibilityInformation := js "No Keys Typed" |}) w
    | None => w
    end
  else w.

(** The host runs the [i]-th pending timer: it leaves the pending list and
    its callback runs. *)
Definition fireTimeout (i : nat) (w : World) : World :=
  match nth_error (timeouts w) i with
  | Some t =>
      clearCallback t
        (set_timeouts (firstn i (timeouts w) ++ skipn (S i) (timeouts w)) w)
  | None => w
  end.

Definition updateConfig (event : option ConfigurationChangeEvent) (w : World)
  : World :=
  if (match event with None => negb TESTING | Some _ => false end)
     || (match event with
         | Some e => affectsConfiguration e "master-key"%string
         | None => false
         end)
  then
    let config := configuration w "master-key"%string in
    set_keyDisplayDelay
      (match config "keyDisplayDelay"%string with
       | Some v => if v =? 0 then KEY_DISPLAY_DELAY_DEFAULT else v
       | None => KEY_DISPLAY_DELAY_DEFAULT
       end) w
  else w.

(** [activate]; the two listeners it registers are run by [StateSet]. *)
Definition activate (w : World) : World :=
  let w := updateConfig None w in
  set_keyStatusBar
    (Some {| text := []; accessibilityInformation := js "No Keys Typed" |}) w.

(** The module as loaded, before [activate]. *)
Definition loaded (store : Configuration) : World :=
  {| keyStatusBar := None;
     keyDisplayDelay := KEY_DISPLAY_DELAY_DEFAULT;
     statusUpdates := MIN_SAFE_INTEGER;
     timeouts := [];
     configuration := store;
     state := {| COUNT := None; PREFIX := None |} |}.

(** Events are handled one at a time. A [StateSet] is the state module
    setting the key state and calling the listener registered with [onSet];
    a [ConfigurationChanged] is the host changing its store and then
    notifying [updateConfig]. *)
Definition step (w : World) (ev : Event) : World :=
  match ev with
  | Activate => activate w
  | StateSet values => snd (updateKeyStatus values (set_state values w))
  | ConfigurationChanged store event =>
      updateConfig (Some event) (set_configuration store w)
  | TimeoutFired i => fireTimeout i w
  end.

Definition run (w : World) (evs : list Event) : World := fold_left step evs w.

End KeyStatus.

Definition noStore : Configuration := fun _ _ => None.

(** ** web/keybindings.ts *)

(** How a call ends: it returns, it throws, or the model's fuel for its
    [while] loops runs out. A call that is out of fuel for every amount of
    fuel does not return; the strings of the model are unbounded, and a host
    with bounded strings ends a loop that grows one for ever by throwing,
    which is no return either. *)
Inductive outcome (A : Type) : Type :=
| Returned (a : A)
| Threw (error : jsstring)
| OutOfFuel.

Arguments Returned {A} a.
Arguments Threw {A} error.
Arguments OutOfFuel {A}.

Definition bind {A B : Type} (o : outcome A) (k : A -> outcome B) : outcome B :=
  match o with
  | Returned a => k a
  | Threw e => Threw e
  | OutOfFuel => OutOfFuel
  end.

Notation "x <- o ;; k" := (bind o (fun x => k))
  (at level 61, o at next level, right associativity).

(** *** Regular expression objects

    A [RegExp] is its source text and flags, its matcher and its mutable
    [lastIndex]. [matchAt str i] is the length of the match of the pattern in
    [str] that starts at index [i], when there is one. *)
Record RegExp := {
  source : jsstring;
  flags : jsstring;
  matchAt : jsstring -> nat -> option nat;
  lastIndex : nat }.

Definition set_lastIndex (i : nat) (r : RegExp) : RegExp :=
  {| source := source r; flags := flags r; matchAt := matchAt r;
     lastIndex := i |}.

Definition hasFlag (f : N) (r : RegExp) : bool :=
  existsb (N.eqb f) (flags r).

Definition flag_g : N := 103.
Definition flag_y : N := 121.

(** The first index from [i] on, among [n] candidates, where [m] matches. *)
Fixpoint scanFrom (m : nat -> option nat) (i n : nat) : option (nat * nat) :=
  match n with
  | O => None
  | S n' =>
      match m i with
      | Some len => Some (i, len)
      | None => scanFrom m (S i) n'
      end
  end.

(** [regex.exec(str)]: the index and the length of [m[0]], or [None] for
    [null]; and the object afterwards. With the [g] or [y] flag the search
    starts at [lastIndex], which a match moves to its end and a failure
    resets to 0. *)
Definition RegExp_exec (regex : RegExp) (str : jsstring)
  : option (nat * nat) * RegExp :=
  let tracked := hasFlag flag_g regex || hasFlag flag_y regex in
  let start := if tracked then lastIndex regex else O in
  let found :=
    if (length str <? start)%nat then None
    else if hasFlag flag_y regex then
      match matchAt regex str start with
      | Some len => Some (start, len)
      | None => None
      end
    else scanFrom (matchAt regex str) start (S (length str) - start) in
  match found with
  | Some (index, len) =>
      (found, if tracked then set_lastIndex (index + len) regex else regex)
  | None => (None, if tracked then set_lastIndex 0 regex else regex)
  end.

Definition RegExp_toString (regex : RegExp) : jsstring :=
  js "/" ++ source regex ++ js "/" ++ flags regex.

(** The [while] loop of [replaceAll]; one unit of fuel per iteration. *)
Fixpoint replaceAll_loop (fuel : nat) (str : jsstring) (regex : RegExp)
    (replacement : jsstring) (m : option (nat * nat)) (result : jsstring)
    (offset : nat) : outcome jsstring :=
  match m with
  | None => Returned (result ++ slice_to_last str offset)
  | Some (index, len) =>
      match fuel with
      | O => OutOfFuel
      | S fuel' =>
          let result := result ++ slice str offset index in
          let result := result ++ replacement in
          let offset := (offset + len)%nat in
          let (m, regex) := RegExp_exec regex str in
          replaceAll_loop fuel' str regex replacement m result offset
      end
  end.

Definition replaceAll (fuel : nat) (str : jsstring) (regex : RegExp)
    (replacement : jsstring) : outcome jsstring :=
  let result := [] in
  if negb (hasFlag flag_g regex) then
    Threw (js "Expected a 'g' flag for regex " ++ RegExp_toString regex)
  else
    let (m, regex) := RegExp_exec regex str in
    let offset := O in
    replaceAll_loop fuel str regex replacement m result offset.

(** *** The two patterns of [formatBindings] *)

Definition isLineTerminator (c : N) : bool :=
  existsb (N.eqb c) [10; 13; 8232; 8233]%N.

(** [\s] *)
Definition isWhiteSpace (c : N) : bool :=
  existsb (N.eqb c)
    [9; 10; 11; 12; 13; 32; 160; 5760; 8232; 8233; 8239; 8287; 12288; 65279]%N
  || ((8192 <=? c) && (c <=? 8202))%N.

(** [^] with the [m] flag. *)
Definition atLineStart (str : jsstring) (i : nat) : bool :=
  match i with
  | O => true
  | S j =>
      match nth_error str j with
      | Some c => isLineTerminator c
      | None => false
      end
  end.

Fixpoint whiteSpaceRun (s : jsstring) : nat :=
  match s with
  | c :: s' => if isWhiteSpace c then S (whiteSpaceRun s') else O
  | [] => O
  end.

(** [/^/mg] *)
Definition lineStartRegex : RegExp :=
  {| source := js "^"; flags := js "gm";
     matchAt := fun str i => if atLineStart str i then Some O else None;
     lastIndex := O |}.

(** [/^\s*(?=\S+)/mg]: at a line start, the longest run of white space,
    provided a character that is not white space follows it (after a
    shorter run a white space follows, so backtracking finds nothing
    else). *)
Definition commentIndentRegex : RegExp :=
  {| source := js "^\s*(?=\S+)"; flags := js "gm";
     matchAt := fun str i =>
       if atLineStart str i then
         let n := whiteSpaceRun (skipn i str) in
         match skipn (i + n) str with
         | _ :: _ => Some n
         | [] => None
         end
       else None;
     lastIndex := O |}.

(** *** Binding items and the generated text *)

Record BindingItem := {
  item_name : option jsstring;
  item_description : option jsstring;
  item_key : jsstring;
  item_when : option jsstring;
  item_command : jsstring;
  item_args : option jsstring (* a JSON text *) }.

Definition AUTOMATED_COMMENT_START_PREFIX : jsstring := js "
    // AUTOMATED BINDINGS START: ModalKey Bindings 
    //
    // These bindings were automatically inserted by the ModalKeys extension from the
    // following file: 
    //
".

Definition AUTOMATED_COMMENT_START_SUFFIX : jsstring := js "
    //
    // Leave this comment (and the one denoting the end) unmodified to ensure the automated
    // bindings are properly updated if/when you insert another preset. Add any additional
    // bindings you want *outside* of the automated bindings region as it will be modified
    // when new presets are imported.
".

Definition AUTOMATED_COMMENT_END : jsstring := js "
    // AUTOMATED BINDINGS END: ModalKey Bindings

    // Leave this comment (and the one denoting the start) unmodified to ensure the
    // automated bindings are properly updated if/when you insert another preset
".

Definition newline : jsstring := [10%N].

(** *** The editor *)

Definition Uri : Type := jsstring. (* as [toString] prints it *)

Record Position := {
  line : Z;
  character : Z }.

Record Range := {
  r_start : Position;
  r_end : Position }.

Definition isBefore (a b : Position) : bool :=
  (line a <? line b) || ((line a =? line b) && (character a <? character b)).

(** [new vscode.Range(a, b)] orders its two ends. *)
Definition new_Range (a b : Position) : Range :=
  if isBefore a b then {| r_start := a; r_end := b |}
  else {| r_start := b; r_end := a |}.

(** A text document: its lines. *)
Definition TextDocument : Type := list jsstring.

(** [doc.lineAt(n)], which throws outside the document. *)
Definition lineAt (doc : TextDocument) (n : Z) : outcome jsstring :=
  if n <? 0 then Threw (js "Illegal value for `line`")
  else
    match nth_error doc (Z.to_nat n) with
    | Some l => Returned l
    | None => Threw (js "Illegal value for `line`")
    end.

(** Modelled from the spec: a structured validation failure of the preset
    parser ('./keybindingParsing' is not among the sources): the path within
    the document, a message, a suggested fix when there is one. *)
Record ParseError := {
  path : list jsstring;
  message : jsstring;
  fix_ : option jsstring }.

(** The parsed preset, as far as [importBindings] looks into it. *)
Record BindingSpec := {
  define_validModes : option (list jsstring);
  bind_ : list BindingItem }.

Inductive ParseResult :=
| ParseSuccess (data : BindingSpec)
| ParseFailure (issues : list ParseError).

(** What the code asks of the host, in the order it asks. *)
Inductive Effect :=
| executeCommand (command : jsstring)
| showErrorMessage (msg : jsstring)
| showInformationMessage (msg : jsstring)
| edit_replace (range : Range) (newText : jsstring)
| edit_insert (location : Position) (newText : jsstring)
| showParseError (prefix : jsstring) (issue : ParseError)
| config_update (section : jsstring) (setting : jsstring) (value : list jsstring).

Definition isEdit (e : Effect) : bool :=
  match e with
  | edit_replace _ _ | edit_insert _ _ => true
  | _ => false
  end.

Definition isErrorMessage (e : Effect) : bool :=
  match e with
  | showErrorMessage _ => true
  | _ => false
  end.

(** A run of an [async] function: what it asked of the host and how it
    ended. *)
Record Run := {
  effects : list Effect;
  completion : outcome unit }.

Section Keybindings.

(** [searchMatches] of './searching': the matches of a text in a document
    from a position on, in the order the generator yields them. *)
Variable searchMatches : TextDocument -> Position -> jsstring -> list Range.

(** [processBindings] of './keybindingProcessing'. *)
Variable processBindings : BindingSpec -> list BindingItem.

(** [JSON.stringify(pick(item, ['key', 'when', 'command', 'args']), null, 4)] *)
Variable JSON_stringify_pick : BindingItem -> jsstring.

Definition findText (doc : TextDocument) (text : jsstring) : option Range :=
  let matches := searchMatches doc {| line := 0; character := 0 |} text in
  match matches with
  | [] => None
  | firstMatch :: _ => Some firstMatch
  end.

Fixpoint formatBindings_loop (fuel : nat) (items : list BindingItem)
    (json : jsstring) : outcome jsstring :=
  match items with
  | [] => Returned json
  | item :: rest =>
      let comment :=
        match item_name item, item_description item with
        | Some n, Some d => n ++ js ": " ++ d
        | Some n, None => n
        | None, Some d => d
        | None, None => []
        end in
      c <- replaceAll fuel comment commentIndentRegex (js "    // ") ;;
      let json := json ++ c ++ newline in
      j <- replaceAll fuel (JSON_stringify_pick item) lineStartRegex (js "    ") ;;
      let json := json ++ j in
      let json := json ++ js "," ++ newline ++ newline in
      formatBindings_loop fuel rest json
  end.

Definition formatBindings (fuel : nat) (file : Uri) (items : list BindingItem)
  : outcome jsstring :=
  json <- formatBindings_loop fuel items [] ;;
  Returned
    (AUTOMATED_COMMENT_START_PREFIX ++
     js "    // `" ++ file ++ js "`" ++
     AUTOMATED_COMMENT_START_SUFFIX ++
     newline ++ json ++
     AUTOMATED_COMMENT_END).

Definition bracketMessage : jsstring :=
  js "Could not find opening `[` at top of keybindings file. Your keybinding file does not appear to be proplery formatted.".

Definition updatedMessage : jsstring := js "Your modal key bindings have
                    been updated in `keybindings.json`.".

Definition alteredMessage : jsstring := js "You appear to have altered the comments
                    around the automated bindings. Please delete the old, automated
                    bindings manually and then re-run this command.".

Definition insertedMessage : jsstring := js "Your modal key bindings have
                    been inserted into `keybindings.json`.".

(** [insertKeybindingsIntoConfig] from its first [await] on;
    [activeTextEditor] is the document of the editor that is active once the
    keybindings file has been opened, if any. *)
Definition insertKeybindingsIntoConfig_resumed (fuel : nat) (file : Uri)
    (config : list BindingItem) (activeTextEditor : option TextDocument) : Run :=
  match activeTextEditor with
  | None => {| effects := []; completion := Returned tt |}
  | Some document =>
      match findText document (js "[") with
      | None =>
          {| effects := [showErrorMessage bracketMessage];
             completion := Returned tt |}
      | Some bracket =>
          let insertAt := r_end bracket in
          match formatBindings fuel file config with
          | Threw e => {| effects := []; completion := Threw e |}
          | OutOfFuel => {| effects := []; completion := OutOfFuel |}
          | Returned bindingsToInsert =>
              let oldBindingsStart :=
                findText document (js "AUTOMATED BINDINGS START") in
              let oldBindingsEnd :=
                findText document (js "AUTOMATED BINDINGS END") in
              match oldBindingsStart, oldBindingsEnd with
              | Some oldStart, Some oldEnd =>
                  match lineAt document (line (r_start oldStart) - 1) with
                  | Returned before =>
                      let range :=
                        new_Range
                          {| line := line (r_start oldStart) - 1;
                             character := Z.of_nat (length before) |}
                          {| line := line (r_end oldEnd) + 4; character := 0 |} in
                      {| effects :=
                           [edit_replace range bindingsToInsert;
                            showInformationMessage updatedMessage];
                         completion := Returned tt |}
                  | Threw e => {| effects := []; completion := Threw e |}
                  | OutOfFuel => {| effects := []; completion := OutOfFuel |}
                  end
              | None, None =>
                  {| effects :=
                       [edit_insert insertAt (newline ++ bindingsToInsert);
                        showInformationMessage insertedMessage];
                     completion := Returned tt |}
              | _, _ =>
                  {| effects := [showErrorMessage alteredMessage];
                     completion := Returned tt |}
              end
          end
      end
  end.

Definition openKeybindingsFile : Effect :=
  executeCommand (js "workbench.action.openGlobalKeybindingsFile").

Definition insertKeybindingsIntoConfig (fuel : nat) (file : Uri)
    (config : list BindingItem) (activeTextEditor : option TextDocument) : Run :=
  let rest := insertKeybindingsIntoConfig_resumed fuel file config activeTextEditor in
  {| effects := openKeybindingsFile :: effects rest;
     completion := completion rest |}.

(** [queryBindingFile], given what the open dialog returned. *)
Definition queryBindingFile (picked : option (list Uri)) : option Uri :=
  match picked with
  | Some [file] => Some file
  | _ => None
  end.

(** A run of [importBindings], and of the insertion it starts without
    awaiting it. *)
Record ImportRun := {
  i_effects : list Effect;
  i_completion : outcome unit;
  i_insertion : option (outcome unit) }.

(** [importBindings], given what its collaborators answer: the open dialog,
    the parser, and the editor active once the keybindings file is open. The
    insertion is not awaited: it runs up to its first [await], the
    configuration is updated, and the insertion goes on afterwards. *)
Definition importBindings (fuel : nat) (picked : option (list Uri))
    (parseBindingFile : Uri -> ParseResult)
    (activeTextEditor : option TextDocument) : ImportRun :=
  match queryBindingFile picked with
  | None =>
      {| i_effects := []; i_completion := Returned tt; i_insertion := None |}
  | Some file =>
      match parseBindingFile file with
      | ParseSuccess data =>
          let bindings := processBindings data in
          let rest :=
            insertKeybindingsIntoConfig_resumed fuel file bindings
              activeTextEditor in
          let update :=
            match define_validModes data with
            | Some newValidModes =>
                [config_update (js "modalkeys") (js "validModes") newValidModes]
            | None => []
            end in
          {| i_effects := openKeybindingsFile :: update ++ effects rest;
             i_completion := Returned tt;
             i_insertion := Some (completion rest) |}
      | ParseFailure issues =>
          {| i_effects :=
               map (showParseError (js "Parsing of bindings failed: "))
                 (firstn 3 issues);
             i_completion := Returned tt;
             i_insertion := None |}
      end
  end.

End Keybindings.

Definition literalRegex (pat : jsstring) (fl : string) : RegExp :=
  {| source := pat; flags := js fl;
     matchAt := fun str i =>
       if jsstring_eqb (firstn (length pat) (skipn i str)) pat
       then Some (length pat) else None;
     lastIndex := O |}.

(** A literal, case-sensitive search, line by line: an instance of
    [searchMatches] for the examples below. *)
Fixpoint occurrences (text l : jsstring) (col : nat) : list nat :=
  match l with
  | [] => []
  | _ :: l' =>
      (if jsstring_eqb (firstn (length text) l) text then [col] else [])
        ++ occurrences text l' (S col)
  end.

Fixpoint searchLines (text : jsstring) (doc : TextDocument) (ln : nat)
  : list Range :=
  match doc with
  | [] => []
  | l :: rest =>
      map (fun col =>
             {| r_start := {| line := Z.of_nat ln; character := Z.of_nat col |};
                r_end := {| line := Z.of_nat ln;
                            character := Z.of_nat (col + length text) |} |})
        (occurrences text l 0)
      ++ searchLines text rest (S ln)
  end.

Definition searchLiteral (doc : TextDocument) (from : Position)
    (text : jsstring) : list Range :=
  filter (fun r => negb (isBefore (r_start r) from)) (searchLines text doc 0).

(** ** Auxiliary definitions for the properties *)

(** The glyph of each modifier token, in the order the specification lists
    them. *)
Definition glyphTable : list (string * string) :=
  [("ctrl", "^"); ("shift", "⇧"); ("alt", "⌥"); ("meta", "◆"); ("win", "⊞");
   ("cmd", "⌘")]%string.

(** The rendering of a prefix in the specification's words: the chord in
    upper case, then each modifier replaced by its glyph in the order of
    [glyphTable], then escape by ESC. *)
Definition glyphForm (toUpperCase : jsstring -> jsstring) (str : jsstring)
  : jsstring :=
  String_replace (wordRegex (js "escape")) (js "ESC")
    (fold_left
       (fun s entry =>
          String_replace (modifierRegex (js (fst entry))) (js (snd entry)) s)
       glyphTable (toUpperCase str)).

(** [apart x tk]: [x] is none of the letters of [tk], whatever the case. *)
Definition apart (x : N) (tk : jsstring) : bool :=
  forallb (fun t => negb (asciiUpper x =? asciiUpper t)%N) tk.

(** The imported [prettifyPrefix] of the evaluated examples: the function of
    that name of the test helpers, over ASCII text. *)
Definition glyphs : jsstring -> jsstring := prettifyPrefix asciiToUpperCase.

Definition emptyValues : Values := {| COUNT := None; PREFIX := None |}.

Definition getCount (values : Values) : Z :=
  match COUNT values with Some c => c | None => 0 end.

Definition getPrefix (values : Values) : jsstring :=
  match PREFIX values with Some p => p | None => [] end.

Definition safe (w : World) : Prop :=
  MIN_SAFE_INTEGER <= statusUpdates w <= MAX_SAFE_INTEGER.

(** [n] times: an empty status update, then its timer fires. *)
Fixpoint rounds (n : nat) : list Event :=
  match n with
  | O => []
  | S k => StateSet emptyValues :: TimeoutFired 0 :: rounds k
  end.

Definition idle (w : World) : Prop :=
  keyStatusBar w <> None /\ 0 < keyDisplayDelay w /\ timeouts w = []
  /\ state w = emptyValues.

(** Activation, then as many status clears as there are integers above
    MIN_SAFE_INTEGER up to MAX_SAFE_INTEGER, then one more empty update. *)
Definition wrapTrace : list Event :=
  [Activate]
    ++ rounds (Z.to_nat (MAX_SAFE_INTEGER - MIN_SAFE_INTEGER))
    ++ [StateSet emptyValues].

Definition masterKeyStore (v : option Z) : Configuration :=
  fun section setting =>
    if (String.eqb section "master-key" && String.eqb setting "keyDisplayDelay")%bool
    then v else None.

(** The gate of [updateConfig]: a call without an event outside testing, or
    an event that affects the section. *)
Definition readsConfiguration (TESTING : bool)
    (event : option ConfigurationChangeEvent) : bool :=
  match event with
  | None => negb TESTING
  | Some e => affectsConfiguration e "master-key"%string
  end.

Definition affects (section : string) : ConfigurationChangeEvent :=
  {| affectsConfiguration := String.eqb section |}.

Definition isConfigUpdate (e : Effect) : bool :=
  match e with
  | config_update _ _ _ => true
  | _ => false
  end.

Definition issueAt (n : string) : ParseError :=
  {| path := [js "bind"; js n]; message := js "Required"; fix_ := None |}.

Definition oneMarkerDocument : TextDocument :=
  [js "["; js "    // AUTOMATED BINDINGS START: ModalKey Bindings "; js "]"].

Definition someItem : BindingItem :=
  {| item_name := None; item_description := None;
     item_key := js "ctrl+x"; item_when := None;
     item_command := js "cut"; item_args := None |}.

(** Modelled from the spec: the count command ('../commands/count' is not
    among the sources). On a digit keystroke the digit is appended to the
    count buffer, and the accumulated digits form a base-10 integer. *)
Definition pressDigit (d : Z) (values : Values) : Values :=
  {| COUNT := Some (getCount values * 10 + d); PREFIX := PREFIX values |}.

Definition typeDigits (ds : list Z) (values : Values) : Values :=
  fold_left (fun v d => pressDigit d v) ds values.

(** Modelled from the spec: the context a command is invoked with is built
    from the count and the prefix as typed. *)
Record InvocationContext := {
  ctx_count : Z;
  ctx_prefix : jsstring }.

Definition invocationContext (values : Values) : InvocationContext :=
  {| ctx_count := getCount values; ctx_prefix := getPrefix values |}.

(** The integer that the digits spell in base 10, most significant first. *)
Fixpoint base10 (ds : list Z) : Z :=
  match ds with
  | [] => 0
  | d :: r => d * 10 ^ Z.of_nat (length r) + base10 r
  end.

(** The entry of a test's key sequence for the digit key [d]. *)
Definition digitKey (d : Z) : ModalKey :=
  Spec {| key := OneKey [digitChar d]; count := Some d;
          updatesStatus := None |}.

(** The labels that [enterModalKeys] looks for in the status bar. *)
Definition waitedLabels (log : list Action) : list jsstring :=
  flat_map (fun a => match a with
                     | waited label => [label]
                     | keys_sent _ => []
                     end) log.

(** The labels of the status after each of the digits typed in turn, from
    the count [c] on: 'Keys Typed: ' and the count in decimal digits. *)
Fixpoint digitLabels (c : Z) (ds : list Z) : list jsstring :=
  match ds with
  | [] => []
  | d :: r =>
      (js "Keys Typed: " ++ countPrefix decimal (c * 10 + d))
        :: digitLabels (c * 10 + d) r
  end.

(** The digits of 2^53 + 1. *)
Definition unsafeDigits : list Z :=
  [9; 0; 0; 7; 1; 9; 9; 2; 5; 4; 7; 4; 0; 9; 9; 3].

(** A prefix that is one chord: no space in it. *)
Definition singleChord (str : jsstring) : bool :=
  forallb (fun c => negb (c =? 32)%N) str.

Definition isDigit (d : Z) : Prop := 0 <= d <= 9.

(** *** The cursor helpers of test/specs/utils.mts *)

(** A cursor position or a move of the cursor, the object [{x, y}] of the
    source; [editor.getCoordinates()] answers with the pair of a row and a
    column. *)
Record XY := {
  pos_x : Z;
  pos_y : Z }.

Definition XY_isEqual (a b : XY) : bool :=
  (pos_x a =? pos_x b) && (pos_y a =? pos_y b).

(** [coordChange], given the coordinates the editor answers with. *)
Definition coordChange (newpos : Z * Z) (oldpos : XY) : XY :=
  let ydiff := fst newpos - pos_y oldpos in
  let xdiff := snd newpos - pos_x oldpos in
  {| pos_y := ydiff; pos_x := xdiff |}.

(** The two variables of [waitUntilCursorUnmoving] that live across the
    polls. *)
Record Unmoving := {
  lastMove : XY;
  stepsUnchanged : Z }.

Definition unmovingStart : Unmoving :=
  {| lastMove := {| pos_x := 0; pos_y := 0 |}; stepsUnchanged := 0 |}.

(** One poll: the condition function handed to [waitUntil], given the
    coordinates the editor answers with; the value it returns is the move, or
    nothing. *)
Definition unmoving_poll (oldpos : XY) (st : Unmoving) (newpos : Z * Z)
  : Unmoving * option XY :=
  let move := coordChange newpos oldpos in
  let st :=
    if XY_isEqual (lastMove st) move
    then {| lastMove := lastMove st; stepsUnchanged := stepsUnchanged st + 1 |}
    else {| lastMove := move; stepsUnchanged := 0 |} in
  (st, if stepsUnchanged st >? 1 then Some move else None).

(** [browser.waitUntil] around it: the polls go on until the condition
    returns a move; [coordinates] are the answers of the editor to the
    successive polls made before the time is out, and [None] is the timeout
    error. *)
Fixpoint unmoving_wait (oldpos : XY) (st : Unmoving) (coordinates : list (Z * Z))
  : option XY :=
  match coordinates with
  | [] => None
  | newpos :: later =>
      match unmoving_poll oldpos st newpos with
      | (_, Some move) => Some move
      | (st, None) => unmoving_wait oldpos st later
      end
  end.

(** [waitUntilCursorUnmoving(editor, oldpos)]; without [oldpos] the first
    answer of the editor is taken for it. *)
Definition waitUntilCursorUnmoving (oldpos : option XY)
    (coordinates : list (Z * Z)) : option XY :=
  match oldpos with
  | Some oldpos => unmoving_wait oldpos unmovingStart coordinates
  | None =>
      match coordinates with
      | [] => None
      | (y, x) :: later =>
          unmoving_wait {| pos_x := x; pos_y := y |} unmovingStart later
      end
  end.

(** [movesCursorInEditor] after its action has run: [first] is the answer of
    the editor right after the action, [coordinates] its later answers; the
    result says whether the expectation of the test holds, [None] being the
    timeout error of the wait. *)
Definition movesCursorInEditor (oldpos : XY) (by_ : Z * Z) (first : Z * Z)
    (coordinates : list (Z * Z)) : option bool :=
  let expected := {| pos_y := fst by_; pos_x := snd by_ |} in
  let actual := coordChange first oldpos in
  if XY_isEqual actual expected then Some true
  else
    match waitUntilCursorUnmoving (Some oldpos) coordinates with
    | Some maybeActual => Some (XY_isEqual maybeActual expected)
    | None => None
    end.

(** *** The replacements of [prettifyPrefix] as a list of steps *)

(** One [str.replace(regex, glyph)] of [prettifyPrefix]: the token of the
    pattern, what replaces it, and whether the pattern ends in [(\+|$)]. *)
Record GlyphStep := {
  s_token : jsstring;
  s_glyph : jsstring;
  s_modifier : bool }.

Definition stepRegex (st : GlyphStep) : jsstring -> option nat :=
  if s_modifier st then modifierRegex (s_token st) else wordRegex (s_token st).

Definition applyStep (str : jsstring) (st : GlyphStep) : jsstring :=
  String_replace (stepRegex st) (s_glyph st) str.

(** The steps of [prettifyPrefix] after the upper-casing, in its order. *)
Definition glyphSteps : list GlyphStep :=
  [{| s_token := js "shift"; s_glyph := js "⇧"; s_modifier := true |};
   {| s_token := js "ctrl"; s_glyph := js "^"; s_modifier := true |};
   {| s_token := js "alt"; s_glyph := js "⌥"; s_modifier := true |};
   {| s_token := js "meta"; s_glyph := js "◆"; s_modifier := true |};
   {| s_token := js "win"; s_glyph := js "⊞"; s_modifier := true |};
   {| s_token := js "cmd"; s_glyph := js "⌘"; s_modifier := true |};
   {| s_token := js "escape"; s_glyph := js "ESC"; s_modifier := false |}].

Definition applySteps (steps : list GlyphStep) (str : jsstring) : jsstring :=
  fold_left applyStep steps str.

(** [clash tok s]: comparing [tok] with the start of [s] meets a code unit of
    [s] that differs, so that [tok] is not found there whatever follows
    [s]. *)
Fixpoint clash (tok s : jsstring) : bool :=
  match tok, s with
  | t :: tok', c :: s' =>
      if (asciiUpper c =? asciiUpper t)%N then clash tok' s' else true
  | _, _ => false
  end.

(** [passes tok p]: [tok] clashes at every index of [p]. *)
Fixpoint passes (tok p : jsstring) : bool :=
  match p with
  | [] => true
  | _ :: p' => clash tok p && passes tok p'
  end.

(** A chord as it is written: modifiers, each followed by a plus sign, then
    the key. *)
Definition chordText (modifiers : list (string * string)) (k : jsstring)
  : jsstring :=
  fold_right (fun m rest => js (fst m) ++ 43%N :: rest) k modifiers.

(** *** Auxiliary definitions for the further properties *)

(** The text and the label of a status bar item agree. *)
Definition labelled (bar : StatusBarItem) : Prop :=
  (text bar = [] /\ accessibilityInformation bar = js "No Keys Typed")
  \/ (text bar <> []
      /\ accessibilityInformation bar = js "Keys Typed: " ++ text bar).

(** What holds of the status bar and of the pending timers in every state the
    module reaches. *)
Definition tidy (w : World) : Prop :=
  Forall (fun t => t_plannedUpdate t = [] /\ 0 < ms t) (timeouts w)
  /\ match keyStatusBar w with
     | Some bar => labelled bar
     | None => True
     end.

Definition isActivate (ev : Event) : bool :=
  match ev with
  | Activate => true
  | _ => false
  end.

(** The text [formatBindings] gives for no items. *)
Definition emptyBindingsText (file : Uri) : jsstring :=
  AUTOMATED_COMMENT_START_PREFIX ++ js "    // `" ++ file ++ js "`"
  ++ AUTOMATED_COMMENT_START_SUFFIX ++ newline ++ AUTOMATED_COMMENT_END.

Definition bracketDocument : TextDocument := [js "["; js "]"].

Definition markersOnFirstLine : TextDocument :=
  [js "[ // AUTOMATED BINDINGS START"; js "  // AUTOMATED BINDINGS END"; js "]"].

Definition noBracketDocument : TextDocument := [js "// keybindings"].

(** The keys of the entry are strings that lower-casing leaves as they
    are. *)
Definition lowerCase (toLowerCase : jsstring -> jsstring) (k : ModalKey)
  : Prop :=
  exists keys,
    strings (modalKeyToStringArray k) = Some keys
    /\ map toLowerCase keys = keys.

(** The keys of the entry are strings, and lower-casing changes one. *)
Definition notLowerCase (toLowerCase : jsstring -> jsstring) (k : ModalKey)
  : Prop :=
  exists keys,
    strings (modalKeyToStringArray k) = Some keys
    /\ map toLowerCase keys <> keys.

(** The counts given in a key sequence, in order. *)
Definition givenCounts (keySeq : list ModalKey) : list Z :=
  flat_map (fun k => match modalKeyCount k with
                     | Some n => [n]
                     | None => []
                     end) keySeq.

(** The first entry of the sequence that is not made of lower-case strings
    is one with a key that lower-casing changes. *)
Definition firstNotLowerCase (toLowerCase : jsstring -> jsstring)
    (keySeq : list ModalKey) : Prop :=
  exists before k after,
    keySeq = before ++ k :: after
    /\ Forall (lowerCase toLowerCase) before
    /\ notLowerCase toLowerCase k.

Definition isSent (a : Action) : bool := negb (isWaited a).

(** A status bar that comes to show whatever is looked for. *)
Definition registersAll (statusBar_getItem : list Action -> jsstring -> bool)
  : Prop :=
  forall log label, statusBar_getItem log label = true.

(** The last [n] answers in [seen] all show the move [m]. *)
Definition lastShow (oldpos : XY) (m : XY) (n : nat) (seen : list (Z * Z))
  : Prop :=
  exists before shown,
    seen = before ++ shown /\ length shown = n
    /\ Forall (fun c => coordChange c oldpos = m) shown.

(** What the loop state knows of the answers seen so far: the last
    [stepsUnchanged] of them show [lastMove], and one more does when
    [lastMove] is an actual move rather than the initial value. *)
Definition remembers (oldpos : XY) (st : Unmoving) (seen : list (Z * Z))
  : Prop :=
  0 <= stepsUnchanged st
  /\ lastShow oldpos (lastMove st) (Z.to_nat (stepsUnchanged st)) seen
  /\ (lastMove st <> {| pos_x := 0; pos_y := 0 |} ->
      lastShow oldpos (lastMove st) (S (Z.to_nat (stepsUnchanged st))) seen).

Definition unmoving_after (oldpos : XY) (st : Unmoving)
    (coordinates : list (Z * Z)) : Unmoving :=
  fold_left (fun st c => fst (unmoving_poll oldpos st c)) coordinates st.

(** * Properties

    In the statements about the status bar module, [toString] stands for the
    host's conversion of a number to a string and [prettify] for the
    [prettifyPrefix] the module imports; the evaluated examples take
    [decimal] and [glyphs] for them. *)

(** ** The order of the modifier replacements *)

Lemma replaceMatches_skip (X : jsstring -> option nat) (g : jsstring) (s : jsstring) :
  forall k, replaceMatches X g k s = replaceMatches X g 0 (skipn k s) \/
            (length s < k)%nat.
Proof.
  induction s as [|c s IH]; intros [|k]; cbn [skipn]; try (left; reflexivity).
  - right. cbn. lia.
  - cbn [replaceMatches]. destruct (IH k) as [H|H]; [left; exact H|].
    right. cbn. lia.
Qed.

Lemma skipn_firstn_app (n : nat) (l u : jsstring) :
  length (firstn n l) = n -> skipn n (firstn n l ++ u) = u.
Proof.
  intro H. rewrite skipn_app, H, Nat.sub_diag.
  rewrite skipn_all2 by lia. reflexivity.
Qed.

Section Modifier.

Variable t0 : N.
Variable tok' : jsstring.
Variable g : N.

Let tok : jsstring := t0 :: tok'.
Let X : jsstring -> option nat := modifierRegex tok.
Let R : jsstring -> jsstring := String_replace X [g].

Lemma R_nil : R [] = [].
Proof. reflexivity. Qed.

Lemma X_first (c : N) (s : jsstring) (len : nat) :
  X (c :: s) = Some len -> asciiUpper c = asciiUpper t0.
Proof.
  unfold X, modifierRegex, tok. cbn [stripPrefix_i].
  destruct (asciiUpper c =? asciiUpper t0)%N eqn:E; [|discriminate].
  intros _. apply N.eqb_eq. exact E.
Qed.

Lemma R_nomatch (c : N) (s : jsstring) :
  X (c :: s) = None -> R (c :: s) = c :: R s.
Proof.
  intro H. unfold R, String_replace. cbn [replaceMatches]. rewrite H.
  reflexivity.
Qed.

Lemma stripPrefix_i_split (tk s rest : jsstring) :
  stripPrefix_i tk s = Some rest ->
  s = firstn (length tk) s ++ rest
  /\ skipn (length tk) s = rest
  /\ (forall u, stripPrefix_i tk (firstn (length tk) s ++ u) = Some u)
  /\ length s = (length tk + length rest)%nat.
Proof.
  revert s. induction tk as [|t tk IH]; intros s H.
  - cbn in H. inversion H. subst. cbn. auto.
  - destruct s as [|c s]; [discriminate|]. cbn [stripPrefix_i] in H.
    destruct (asciiUpper c =? asciiUpper t)%N eqn:E; [|discriminate].
    destruct (IH s H) as (H1 & H2 & H3 & H4).
    cbn [length firstn skipn app stripPrefix_i]. rewrite E.
    repeat split; [f_equal; exact H1 | exact H2 | exact H3 | lia].
Qed.

(** A match is the token followed by a plus sign, or the token at the end. *)
Lemma X_match (s : jsstring) (len : nat) :
  X s = Some len ->
  exists rest,
    stripPrefix_i tok s = Some rest
    /\ ((rest = [] /\ len = length tok)
        \/ (exists rest2, rest = 43%N :: rest2 /\ len = S (length tok))).
Proof.
  unfold X, modifierRegex.
  destruct (stripPrefix_i tok s) as [[|c rest]|] eqn:E; [| |discriminate].
  - intro H. inversion H. exists []. auto.
  - destruct (c =? 43)%N eqn:Ec; [|discriminate].
    apply N.eqb_eq in Ec. subst c.
    intro H. inversion H. exists (43%N :: rest). split; [reflexivity|].
    right. exists rest. auto.
Qed.

Lemma R_match (s : jsstring) (len : nat) :
  X s = Some len -> R s = g :: R (skipn len s).
Proof.
  intro H. destruct (X_match s len H) as (rest & Hs & Hcase).
  destruct (stripPrefix_i_split tok s rest Hs) as (_ & _ & _ & Hlen).
  destruct s as [|c s]; [discriminate|].
  assert (Hk : exists k, len = S k /\ (k <= length s)%nat).
  { change (length tok) with (S (length tok')) in *. cbn [length] in Hlen.
    destruct Hcase as [[-> ->] | (r & -> & ->)]; cbn [length] in Hlen;
      eexists; (split; [reflexivity | lia]). }
  destruct Hk as (k & -> & Hk).
  unfold R, String_replace. cbn [replaceMatches]. rewrite H.
  cbn [app skipn]. f_equal.
  destruct (replaceMatches_skip X [g] s k) as [E|E]; [exact E | lia].
Qed.

(** A code unit of the result other than the glyph is a code unit of the
    subject, where the pattern does not match. *)
Lemma R_head (s r : jsstring) (x : N) :
  R s = x :: r -> x <> g ->
  exists s', s = x :: s' /\ r = R s' /\ X s = None.
Proof.
  intros H Hx. destruct s as [|c s]; [discriminate|].
  destruct (X (c :: s)) as [len|] eqn:E.
  - rewrite (R_match _ _ E) in H. inversion H. congruence.
  - rewrite (R_nomatch _ _ E) in H. inversion H. subst. eauto.
Qed.

Lemma R_empty (s : jsstring) : R s = [] -> s = [].
Proof.
  destruct s as [|c s]; [reflexivity|]. intro H. exfalso.
  destruct (X (c :: s)) as [len|] eqn:E.
  - rewrite (R_match _ _ E) in H. discriminate.
  - rewrite (R_nomatch _ _ E) in H. discriminate.
Qed.

(** Another token that is found in the result was in the subject. *)
Lemma strip_through (tk : jsstring) :
  apart g tk = true ->
  forall s rest',
    stripPrefix_i tk (R s) = Some rest' ->
    exists rest, stripPrefix_i tk s = Some rest /\ rest' = R rest.
Proof.
  induction tk as [|t tk IH]; intros Hap s rest' H.
  - cbn in H. inversion H. exists s. split; reflexivity.
  - cbn [apart forallb] in Hap. apply andb_true_iff in Hap.
    destruct Hap as [Ht Hap].
    destruct (R s) as [|x r] eqn:ER; [discriminate|].
    cbn [stripPrefix_i] in H.
    destruct (asciiUpper x =? asciiUpper t)%N eqn:E; [|discriminate].
    assert (Hx : x <> g).
    { intros ->. rewrite E in Ht. discriminate. }
    destruct (R_head s r x ER Hx) as (s' & -> & -> & _).
    destruct (IH Hap s' rest' H) as (rest & H1 & H2).
    exists rest. cbn [stripPrefix_i]. rewrite E. auto.
Qed.

(** Another token whose letters are not this token's first letter is passed
    over. *)
Lemma pass_through (tk : jsstring) :
  apart t0 tk = true ->
  forall s rest,
    stripPrefix_i tk s = Some rest ->
    R s = firstn (length tk) s ++ R rest.
Proof.
  induction tk as [|t tk IH]; intros Hap s rest H.
  - cbn in H. inversion H. reflexivity.
  - cbn [apart forallb] in Hap. apply andb_true_iff in Hap.
    destruct Hap as [Ht Hap].
    destruct s as [|c s]; [discriminate|]. cbn [stripPrefix_i] in H.
    destruct (asciiUpper c =? asciiUpper t)%N eqn:E; [|discriminate].
    apply N.eqb_eq in E.
    assert (Hno : X (c :: s) = None).
    { destruct (X (c :: s)) as [len|] eqn:EX; [|reflexivity].
      apply X_first in EX. rewrite E in EX. rewrite <- EX, N.eqb_refl in Ht.
      discriminate. }
    rewrite (R_nomatch _ _ Hno). cbn [length firstn app]. f_equal.
    apply IH; assumption.
Qed.

Lemma R_pass (x : N) (s : jsstring) :
  (asciiUpper x =? asciiUpper t0)%N = false -> R (x :: s) = x :: R s.
Proof.
  intro H. apply R_nomatch.
  destruct (X (x :: s)) as [len|] eqn:EX; [|reflexivity].
  apply X_first in EX. rewrite EX, N.eqb_refl in H. discriminate.
Qed.

End Modifier.

Section TwoModifiers.

Variables (a0 : N) (tokA' : jsstring) (gA : N).
Variables (b0 : N) (tokB' : jsstring) (gB : N).

Let tokA : jsstring := a0 :: tokA'.
Let tokB : jsstring := b0 :: tokB'.
Let A := modifierRegex tokA.
Let B := modifierRegex tokB.
Let RA := String_replace A [gA].
Let RB := String_replace B [gB].

(** The first letter of the one token is no letter of the other, nor the
    plus sign, nor the other's glyph; the glyph of the one is no letter of
    the other token, nor the plus sign. *)
Hypothesis b0_apart : apart b0 (43%N :: gA :: tokA) = true.
Hypothesis gB_apart : apart gB (43%N :: tokA) = true.

Lemma no_new_match (c : N) (s : jsstring) :
  A (c :: s) = None -> A (c :: RB s) = None.
Proof.
  intro Hno. destruct (A (c :: RB s)) as [len|] eqn:E; [|reflexivity].
  exfalso.
  destruct (X_match a0 tokA' _ _ E) as (rest' & Hs & Hcase).
  cbn [stripPrefix_i] in Hs.
  destruct (asciiUpper c =? asciiUpper a0)%N eqn:Ec; [|discriminate].
  cbn [apart forallb] in gB_apart.
  apply andb_true_iff in gB_apart. destruct gB_apart as [Hplus Hap].
  apply andb_true_iff in Hap. destruct Hap as [_ Hap].
  destruct (strip_through b0 tokB' gB tokA' Hap s rest' Hs) as (rest & H1 & H2).
  assert (HA : A (c :: s) <> None).
  { unfold A, modifierRegex, tokA. cbn [stripPrefix_i]. rewrite Ec, H1.
    destruct Hcase as [[-> _] | (r2 & -> & _)].
    - symmetry in H2. apply R_empty in H2. subst rest. discriminate.
    - symmetry in H2.
      assert (Hx : 43%N <> gB).
      { intros <-. cbn in Hplus. discriminate. }
      destruct (R_head b0 tokB' gB rest r2 43%N H2 Hx) as (s' & -> & _ & _).
      cbn. discriminate. }
  contradiction.
Qed.

Lemma head_match (s : jsstring) (len : nat) :
  A s = Some len ->
  (forall s2, (length s2 < length s)%nat -> RA (RB s2) = RB (RA s2)) ->
  RA (RB s) = RB (RA s).
Proof.
  intros HA IH.
  cbn [apart forallb] in b0_apart.
  apply andb_true_iff in b0_apart. destruct b0_apart as [Hplus Hap].
  apply andb_true_iff in Hap. destruct Hap as [HgA Hap].
  assert (HRBplus : forall u, RB (43%N :: u) = 43%N :: RB u).
  { intro u. apply (R_pass b0 tokB' gB 43%N u).
    rewrite N.eqb_sym. apply negb_true_iff. exact Hplus. }
  assert (HRBg : forall u, RB (gA :: u) = gA :: RB u).
  { intro u. apply (R_pass b0 tokB' gB gA u).
    rewrite N.eqb_sym. apply negb_true_iff. exact HgA. }
  assert (HRA : forall u n, A u = Some n -> RA u = gA :: RA (skipn n u)).
  { intros u n. apply (R_match a0 tokA' gA u n). }
  destruct (X_match a0 tokA' s len HA) as (rest & Hs & Hcase).
  destruct (stripPrefix_i_split _ _ _ Hs) as (Happ & Hskip & Hre & Hlen).
  assert (HB : RB s = firstn (length tokA) s ++ RB rest).
  { apply (pass_through b0 tokB' gB (a0 :: tokA') Hap s rest Hs). }
  fold tokA in Happ, Hskip, Hre, Hlen.
  rewrite (HRA s len HA), HRBg.
  destruct Hcase as [[-> ->] | (rest2 & -> & ->)].
  - rewrite HB. change (RB []) with (@nil N). rewrite app_nil_r in *.
    rewrite <- Happ. rewrite (HRA s _ HA).
    change (length (a0 :: tokA')) with (length tokA). rewrite Hskip.
    reflexivity.
  - rewrite HB, HRBplus.
    assert (HA' : A (firstn (length tokA) s ++ 43%N :: RB rest2)
                  = Some (S (length tokA))).
    { unfold A, modifierRegex. rewrite Hre. reflexivity. }
    rewrite (HRA _ _ HA').
    assert (Hfirst : length (firstn (length tokA) s) = length tokA).
    { rewrite length_firstn. lia. }
    assert (Hsk1 : skipn (S (length tokA))
                     (firstn (length tokA) s ++ 43%N :: RB rest2) = RB rest2).
    { change (S (length tokA)) with (1 + length tokA)%nat.
      rewrite <- skipn_skipn.
      rewrite (skipn_firstn_app _ _ _ Hfirst). reflexivity. }
    assert (Hsk2 : skipn (S (length tokA)) s = rest2).
    { change (S (length tokA)) with (1 + length tokA)%nat.
      rewrite <- skipn_skipn, Hskip. reflexivity. }
    change (length (a0 :: tokA')) with (length tokA).
    rewrite Hsk1, Hsk2. f_equal.
    apply IH.
    rewrite Hlen. cbn [length]. lia.
Qed.

End TwoModifiers.

(** Replacing the one modifier and then the other, or the other way round,
    gives the same string. *)
Lemma modifiers_commute (a0 : N) (tokA' : jsstring) (gA : N)
    (b0 : N) (tokB' : jsstring) (gB : N) :
  apart b0 (43%N :: gA :: a0 :: tokA') = true ->
  apart gB (43%N :: a0 :: tokA') = true ->
  apart a0 (43%N :: gB :: b0 :: tokB') = true ->
  apart gA (43%N :: b0 :: tokB') = true ->
  forall s,
    String_replace (modifierRegex (a0 :: tokA')) [gA]
      (String_replace (modifierRegex (b0 :: tokB')) [gB] s)
    = String_replace (modifierRegex (b0 :: tokB')) [gB]
        (String_replace (modifierRegex (a0 :: tokA')) [gA] s).
Proof.
  intros Hb HgB Ha HgA s.
  remember (length s) as n eqn:Hn.
  assert (Hle : (length s <= n)%nat) by lia. clear Hn.
  revert s Hle. induction n as [|n IH]; intros s Hle.
  - destruct s; [reflexivity | cbn in Hle; lia].
  - destruct s as [|c s]; [reflexivity|].
    destruct (modifierRegex (a0 :: tokA') (c :: s)) as [la|] eqn:EA.
    + apply (head_match a0 tokA' gA b0 tokB' gB Hb (c :: s) la EA).
      intros s2 H2. apply IH. cbn in *. lia.
    + destruct (modifierRegex (b0 :: tokB') (c :: s)) as [lb|] eqn:EB.
      * symmetry.
        apply (head_match b0 tokB' gB a0 tokA' gA Ha (c :: s) lb EB).
        intros s2 H2. symmetry. apply IH. cbn in *. lia.
      * rewrite (R_nomatch a0 tokA' gA c s EA).
        rewrite (R_nomatch b0 tokB' gB c s EB).
        rewrite (R_nomatch a0 tokA' gA c _
                   (no_new_match a0 tokA' b0 tokB' gB HgB c s EA)).
        rewrite (R_nomatch b0 tokB' gB c _
                   (no_new_match b0 tokB' a0 tokA' gA HgA c s EB)).
        f_equal. apply IH. cbn in Hle. lia.
Qed.

Lemma shift_ctrl_commute (s : jsstring) :
  String_replace (modifierRegex (js "shift")) (js "⇧")
    (String_replace (modifierRegex (js "ctrl")) (js "^") s)
  = String_replace (modifierRegex (js "ctrl")) (js "^")
      (String_replace (modifierRegex (js "shift")) (js "⇧") s).
Proof.
  apply (modifiers_commute 115 (js "hift") 8679 99 (js "trl") 94);
    reflexivity.
Qed.

Lemma prettifyPrefix_glyphForm (toUpperCase : jsstring -> jsstring)
    (str : jsstring) :
  prettifyPrefix toUpperCase str = glyphForm toUpperCase str.
Proof.
  unfold prettifyPrefix, glyphForm, glyphTable. cbn [fold_left fst snd].
  rewrite shift_ctrl_commute. reflexivity.
Qed.

(** ** Status projection *)

Lemma plannedUpdate_eq (Number_toString : Z -> jsstring)
    (utils_prettifyPrefix : jsstring -> jsstring) (values : Values) :
  plannedUpdate Number_toString utils_prettifyPrefix values
  = countPrefix Number_toString (getCount values)
    ++ utils_prettifyPrefix (getPrefix values).
Proof. reflexivity. Qed.

Lemma length_pos_nonempty (s : jsstring) :
  (0 <? length s)%nat = true <-> s <> [].
Proof.
  destruct s as [|c s]; simpl; split; intro H; try congruence; try reflexivity.
  discriminate.
Qed.

(** When the status bar exists and the delay is positive, a non-empty
    projection is what the status bar shows after the update. *)
Lemma updateKeyStatus_shows (toString : Z -> jsstring)
    (prettify : jsstring -> jsstring)
    (values : Values) (w : World) (bar : StatusBarItem) :
  keyStatusBar w = Some bar ->
  0 < keyDisplayDelay w ->
  plannedUpdate toString prettify values <> [] ->
  keyStatusBar (snd (updateKeyStatus toString prettify values w))
  = Some {| text := plannedUpdate toString prettify values;
            accessibilityInformation :=
              js "Keys Typed: " ++ plannedUpdate toString prettify values |}.
Proof.
  intros Hbar Hdelay Hne. unfold updateKeyStatus. rewrite Hbar.
  apply Z.gtb_lt in Hdelay. rewrite Hdelay.
  apply length_pos_nonempty in Hne. rewrite Hne. reflexivity.
Qed.

Section StatusProjection.

Variable Number_toString : Z -> jsstring.
Variable utils_prettifyPrefix : jsstring -> jsstring.
Variable toUpperCase : jsstring -> jsstring.

(** The host prints an integer of absolute value up to MAX_SAFE_INTEGER as
    its decimal digits. *)
Hypothesis Number_toString_safe :
  forall n, Z.abs n <= MAX_SAFE_INTEGER -> Number_toString n = decimal n.

(** On a string of ASCII code units the host's [toUpperCase] maps the letters
    a to z to A to Z and keeps the rest. *)
Hypothesis toUpperCase_ascii :
  forall s, forallb isAscii s = true -> toUpperCase s = asciiToUpperCase s.

(** On a single chord the imported [prettifyPrefix] is the function of that
    name of test/specs/utils.mts. *)
Hypothesis utils_prettifyPrefix_chord :
  forall str, singleChord str = true ->
              utils_prettifyPrefix str = prettifyPrefix toUpperCase str.


End StatusProjection.


(** ** The status update handler and its timers *)

Lemma length_zero_empty (s : jsstring) : (0 <? length s)%nat = false -> s = [].
Proof. destruct s; [reflexivity | discriminate]. Qed.

(** What a call of [updateKeyStatus] can do to the world: nothing, set the
    status bar, or add one status-clear timer that captures the current
    generation. *)
Lemma updateKeyStatus_cases (toString : Z -> jsstring)
    (prettify : jsstring -> jsstring)
    (values : Values) (w : World) :
  let w' := snd (updateKeyStatus toString prettify values w) in
  w' = w
  \/ (exists bar, w' = set_keyStatusBar (Some bar) w)
  \/ w' = set_timeouts
            (timeouts w ++
               [{| currentUpdate := statusUpdates w;
                   t_plannedUpdate := [];
                   ms := keyDisplayDelay w |}]) w.
Proof.
  unfold updateKeyStatus.
  destruct (keyStatusBar w) as [bar|]; [|left; reflexivity].
  destruct (keyDisplayDelay w >? 0); [|left; reflexivity].
  destruct (0 <? length (plannedUpdate toString prettify values))%nat eqn:Hlen.
  - right; left. eexists. reflexivity.
  - right; right. apply length_zero_empty in Hlen. cbn [snd]. rewrite Hlen.
    reflexivity.
Qed.

(** A callback whose captured generation is not the current one does
    nothing. *)
Lemma stale_clearCallback (t : Timeout) (w : World) :
  currentUpdate t <> statusUpdates w -> clearCallback t w = w.
Proof.
  intro H. unfold clearCallback.
  destruct (currentUpdate t =? statusUpdates w) eqn:E; [|reflexivity].
  apply Z.eqb_eq in E. contradiction.
Qed.

Lemma clearCallback_statusUpdates (t : Timeout) (w : World) :
  let n := statusUpdates w in
  let n' := statusUpdates (clearCallback t w) in
  n' = n \/ (n < MAX_SAFE_INTEGER /\ n' = n + 1)
  \/ (MAX_SAFE_INTEGER <= n /\ n' = MIN_SAFE_INTEGER).
Proof.
  unfold clearCallback.
  destruct (currentUpdate t =? statusUpdates w); [|left; reflexivity].
  destruct (statusUpdates w <? MAX_SAFE_INTEGER) eqn:E.
  - apply Z.ltb_lt in E. right; left.
    destruct w as [[bar|] d n ts c st]; cbn in *; auto.
  - apply Z.ltb_ge in E. right; right.
    destruct w as [[bar|] d n ts c st]; cbn in *; auto.
Qed.

Lemma clearCallback_frame (t : Timeout) (w : World) :
  keyDisplayDelay (clearCallback t w) = keyDisplayDelay w
  /\ configuration (clearCallback t w) = configuration w
  /\ state (clearCallback t w) = state w
  /\ timeouts (clearCallback t w) = timeouts w.
Proof.
  unfold clearCallback.
  destruct (currentUpdate t =? statusUpdates w); [|auto].
  destruct (statusUpdates w <? MAX_SAFE_INTEGER);
    destruct w as [[bar|] d n ts c st]; cbn; auto.
Qed.

(** What a call of [updateKeyStatus] leaves as it is. *)
Lemma updateKeyStatus_keeps (toString : Z -> jsstring)
    (prettify : jsstring -> jsstring)
    (values : Values) (w : World) :
  let w' := snd (updateKeyStatus toString prettify values w) in
  state w' = state w
  /\ statusUpdates w' = statusUpdates w
  /\ keyDisplayDelay w' = keyDisplayDelay w
  /\ configuration w' = configuration w.
Proof.
  pose proof (updateKeyStatus_cases toString prettify values w) as H.
  cbv zeta in *.
  destruct H as [H | [[bar H] | H]]; rewrite H; repeat split.
Qed.

(** C7 (as amended). A call of the status-update handler leaves the key
    state, the generation counter, the display delay and the configuration
    store as they were and returns [true]; its only effects are to set the
    status bar (text and label) or, when the projection is empty, to
    schedule one status-clear timer. *)
Theorem C7_updateKeyStatus_frame (toString : Z -> jsstring)
    (prettify : jsstring -> jsstring)
    (values : Values) (w : World) :
  let r := updateKeyStatus toString prettify values w in
  fst r = true
  /\ state (snd r) = state w
  /\ statusUpdates (snd r) = statusUpdates w
  /\ keyDisplayDelay (snd r) = keyDisplayDelay w
  /\ configuration (snd r) = configuration w
  /\ (snd r = w
      \/ (exists bar, snd r = set_keyStatusBar (Some bar) w)
      \/ snd r = set_timeouts
                   (timeouts w ++
                      [{| currentUpdate := statusUpdates w;
                          t_plannedUpdate := [];
                          ms := keyDisplayDelay w |}]) w).
Proof.
  intro r. subst r.
  split.
  { unfold updateKeyStatus.
    destruct (keyStatusBar w); [|reflexivity].
    destruct (keyDisplayDelay w >? 0); [|reflexivity].
    destruct (0 <? length (plannedUpdate toString prettify values))%nat;
      reflexivity. }
  destruct (updateKeyStatus_keeps toString prettify values w)
    as (H1 & H2 & H3 & H4).
  repeat (split; [assumption|]).
  apply updateKeyStatus_cases.
Qed.

(** C7, as stated, fails: with an empty projection the call changes the
    world (one more pending timer) although the status bar is as before. *)
Lemma C7_schedules_a_timer :
  let w := activate false (loaded false noStore) in
  let w' := snd (updateKeyStatus decimal glyphs emptyValues w) in
  keyStatusBar w' = keyStatusBar w
  /\ state w' = state w
  /\ length (timeouts w') = S (length (timeouts w)).
Proof. vm_compute. repeat split. Qed.

(** C2, evaluated. A status clear is scheduled; a keystroke then sets the
    status to "3× ^X" without touching the generation counter, so that the
    pending timer's captured generation is still the current one; when the
    timer fires late it clears the status text the keystroke has set. *)
Theorem C2_late_clear_overwrites_keystroke :
  let w0 := run decimal glyphs false (loaded false noStore)
              [Activate; StateSet emptyValues] in
  let w1 := step decimal glyphs false w0
              (StateSet {| COUNT := Some 3; PREFIX := Some (js "ctrl+x") |}) in
  let w2 := step decimal glyphs false w1 (TimeoutFired 0) in
  map currentUpdate (timeouts w1) = [statusUpdates w1]
  /\ option_map text (keyStatusBar w1) = Some (js "3× ^X")
  /\ option_map text (keyStatusBar w2) = Some []
  /\ option_map accessibilityInformation (keyStatusBar w2)
     = Some (js "No Keys Typed").
Proof. vm_compute. repeat split. Qed.

(** ** The generation counter *)

Lemma step_statusUpdates (toString : Z -> jsstring)
    (prettify : jsstring -> jsstring) (TESTING : bool)
    (w : World) (ev : Event) :
  let n := statusUpdates w in
  let n' := statusUpdates (step toString prettify TESTING w ev) in
  n' = n \/ (n < MAX_SAFE_INTEGER /\ n' = n + 1)
  \/ (MAX_SAFE_INTEGER <= n /\ n' = MIN_SAFE_INTEGER).
Proof.
  destruct ev as [|values|store event|i]; cbn [step].
  - left. unfold activate, updateConfig.
    match goal with |- context [if ?b then _ else _] => destruct b end;
      reflexivity.
  - left.
    destruct (updateKeyStatus_keeps toString prettify values
                (set_state values w))
      as (_ & H & _).
    rewrite H. reflexivity.
  - left. unfold updateConfig.
    match goal with |- context [if ?b then _ else _] => destruct b end;
      reflexivity.
  - unfold fireTimeout. destruct (nth_error (timeouts w) i) as [t|].
    + apply (clearCallback_statusUpdates t
               (set_timeouts
                  (firstn i (timeouts w) ++ skipn (S i) (timeouts w)) w)).
    + left; reflexivity.
Qed.

Lemma step_safe (toString : Z -> jsstring)
    (prettify : jsstring -> jsstring) (TESTING : bool)
    (w : World) (ev : Event) :
  safe w -> safe (step toString prettify TESTING w ev).
Proof.
  unfold safe. intro H.
  pose proof (step_statusUpdates toString prettify TESTING w ev) as S.
  cbv zeta in S. unfold MAX_SAFE_INTEGER, MIN_SAFE_INTEGER in *. lia.
Qed.

Lemma run_safe (toString : Z -> jsstring)
    (prettify : jsstring -> jsstring) (TESTING : bool)
    (evs : list Event) :
  forall w, safe w -> safe (run toString prettify TESTING w evs).
Proof.
  induction evs as [|ev evs IH]; intros w H; [exact H|].
  apply IH, step_safe, H.
Qed.

Lemma run_app (toString : Z -> jsstring)
    (prettify : jsstring -> jsstring) (TESTING : bool)
    (w : World) (a b : list Event) :
  run toString prettify TESTING w (a ++ b)
  = run toString prettify TESTING (run toString prettify TESTING w a) b.
Proof. apply fold_left_app. Qed.

(** C5 (as amended). From the loaded module on, through every sequence of
    events and timer firings, the generation counter stays between
    MIN_SAFE_INTEGER and MAX_SAFE_INTEGER, and each event leaves it as it is,
    adds one to it while it is below MAX_SAFE_INTEGER, or takes it from
    MAX_SAFE_INTEGER back to MIN_SAFE_INTEGER: it never decreases except by
    that wrap-around. *)
Theorem C5_generation_counter (toString : Z -> jsstring)
    (prettify : jsstring -> jsstring)
    (TESTING : bool) (store : Configuration) (evs : list Event) (ev : Event) :
  let w := run toString prettify TESTING (loaded TESTING store) evs in
  let w' := step toString prettify TESTING w ev in
  MIN_SAFE_INTEGER <= statusUpdates w <= MAX_SAFE_INTEGER
  /\ (statusUpdates w' = statusUpdates w
      \/ (statusUpdates w < MAX_SAFE_INTEGER
          /\ statusUpdates w' = statusUpdates w + 1)
      \/ (statusUpdates w = MAX_SAFE_INTEGER
          /\ statusUpdates w' = MIN_SAFE_INTEGER)).
Proof.
  intros w w'.
  assert (Hs : safe w).
  { apply run_safe. unfold safe, loaded; cbn.
    unfold MIN_SAFE_INTEGER, MAX_SAFE_INTEGER. lia. }
  split; [exact Hs|].
  pose proof (step_statusUpdates toString prettify TESTING w ev) as S.
  cbv zeta in S. fold w' in S. unfold safe in Hs. lia.
Qed.

Lemma round_idle (TESTING : bool) (w : World) :
  idle w -> statusUpdates w < MAX_SAFE_INTEGER ->
  let w' := run decimal glyphs TESTING w
              [StateSet emptyValues; TimeoutFired 0] in
  idle w' /\ statusUpdates w' = statusUpdates w + 1.
Proof.
  intros (Hbar & Hdelay & Hts & Hst) Hlt.
  destruct w as [[bar|] d n ts c st]; cbn in *; [|congruence].
  subst ts st. apply Z.gtb_lt in Hdelay.
  unfold updateKeyStatus; cbn. rewrite Hdelay.
  change (plannedUpdate decimal glyphs emptyValues) with (@nil N).
  cbn. unfold fireTimeout; cbn. unfold clearCallback; cbn.
  rewrite Z.eqb_refl. apply Z.ltb_lt in Hlt. rewrite Hlt. cbn.
  unfold idle; cbn. apply Z.gtb_lt in Hdelay.
  repeat split; try congruence; assumption.
Qed.

Lemma rounds_idle (TESTING : bool) (n : nat) :
  forall w, idle w -> statusUpdates w + Z.of_nat n <= MAX_SAFE_INTEGER ->
  let w' := run decimal glyphs TESTING w (rounds n) in
  idle w' /\ statusUpdates w' = statusUpdates w + Z.of_nat n.
Proof.
  induction n as [|n IH]; intros w Hi Hle.
  - cbn. split; [exact Hi | lia].
  - change (rounds (S n))
      with ([StateSet emptyValues; TimeoutFired 0] ++ rounds n).
    cbv zeta. rewrite run_app.
    destruct (round_idle TESTING w Hi) as [Hi1 H1]; [lia|].
    destruct (IH _ Hi1) as [Hi2 H2]; [lia|].
    split; [exact Hi2 | lia].
Qed.

Lemma round_wraps (TESTING : bool) (w : World) :
  idle w -> statusUpdates w = MAX_SAFE_INTEGER ->
  statusUpdates
    (run decimal glyphs TESTING w [StateSet emptyValues; TimeoutFired 0])
  = MIN_SAFE_INTEGER.
Proof.
  intros (Hbar & Hdelay & Hts & Hst) Hmax.
  destruct w as [[bar|] d n ts c st]; cbn in *; [|congruence].
  subst ts st n. apply Z.gtb_lt in Hdelay.
  unfold updateKeyStatus; cbn. rewrite Hdelay.
  change (plannedUpdate decimal glyphs emptyValues) with (@nil N).
  cbn. unfold fireTimeout; cbn. unfold clearCallback; cbn.
  reflexivity.
Qed.

Lemma wraps_after_rounds (n : nat) :
  Z.of_nat n = MAX_SAFE_INTEGER - MIN_SAFE_INTEGER ->
  let w := run decimal glyphs false (loaded false noStore)
             ([Activate] ++ rounds n ++ [StateSet emptyValues]) in
  statusUpdates w = MAX_SAFE_INTEGER
  /\ statusUpdates (step decimal glyphs false w (TimeoutFired 0))
     = MIN_SAFE_INTEGER.
Proof.
  intro Hz. cbv zeta. rewrite !run_app.
  remember (run decimal glyphs false (loaded false noStore) [Activate])
    as w0 eqn:Hw0.
  assert (Hi0 : idle w0).
  { subst w0. unfold idle; cbn. repeat split; try discriminate; lia. }
  assert (Hs0 : statusUpdates w0 = MIN_SAFE_INTEGER)
    by (subst w0; reflexivity).
  clear Hw0.
  destruct (rounds_idle false n w0 Hi0) as [Hi1 H1]; [lia|].
  remember (run decimal glyphs false w0 (rounds n)) as w1 eqn:Hw1.
  clear Hw1.
  assert (Hmax : statusUpdates w1 = MAX_SAFE_INTEGER) by lia.
  pose proof (round_wraps false w1 Hi1 Hmax) as Hwrap.
  assert (Hkeep :
    statusUpdates (run decimal glyphs false w1 [StateSet emptyValues])
    = statusUpdates w1).
  { cbn [run fold_left step].
    destruct (updateKeyStatus_keeps decimal glyphs emptyValues
                (set_state emptyValues w1)) as (_ & H & _).
    rewrite H. reflexivity. }
  change (run decimal glyphs false w1 [StateSet emptyValues; TimeoutFired 0])
    with (step decimal glyphs false
            (run decimal glyphs false w1 [StateSet emptyValues])
            (TimeoutFired 0)) in Hwrap.
  rewrite Hkeep, Hwrap. split; [exact Hmax | reflexivity].
Qed.

Lemma safe_range : 0 <= MAX_SAFE_INTEGER - MIN_SAFE_INTEGER.
Proof. unfold MAX_SAFE_INTEGER, MIN_SAFE_INTEGER. lia. Qed.

Lemma safe_order : MIN_SAFE_INTEGER < MAX_SAFE_INTEGER.
Proof. unfold MAX_SAFE_INTEGER, MIN_SAFE_INTEGER. lia. Qed.

(** C5, as stated, fails: after enough status clears the counter has
    reached MAX_SAFE_INTEGER, and the next clear takes it back to
    MIN_SAFE_INTEGER. *)
Lemma C5_counter_wraps_around :
  let w := run decimal glyphs false (loaded false noStore) wrapTrace in
  let w' := step decimal glyphs false w (TimeoutFired 0) in
  statusUpdates w = MAX_SAFE_INTEGER
  /\ statusUpdates w' = MIN_SAFE_INTEGER
  /\ statusUpdates w' < statusUpdates w.
Proof.
  pose proof (wraps_after_rounds _ (Z2Nat.id _ safe_range)) as H.
  cbv zeta in H. fold wrapTrace in H. cbv zeta.
  destruct H as [Hmax Hmin].
  split; [exact Hmax|]. split; [exact Hmin|].
  rewrite Hmin, Hmax. exact safe_order.
Qed.

(** ** The display delay *)

Lemma updateConfig_eq (TESTING : bool)
    (event : option ConfigurationChangeEvent) (w : World) :
  updateConfig TESTING event w
  = if readsConfiguration TESTING event
    then set_keyDisplayDelay
           (match configuration w "master-key"%string "keyDisplayDelay"%string with
            | Some v => if v =? 0 then KEY_DISPLAY_DELAY_DEFAULT TESTING else v
            | None => KEY_DISPLAY_DELAY_DEFAULT TESTING
            end) w
    else w.
Proof.
  unfold updateConfig, readsConfiguration.
  destruct event as [e|]; cbn; [|rewrite orb_false_r]; reflexivity.
Qed.

Lemma fireTimeout_keyDisplayDelay (i : nat) (w : World) :
  keyDisplayDelay (fireTimeout i w) = keyDisplayDelay w.
Proof.
  unfold fireTimeout. destruct (nth_error (timeouts w) i) as [t|]; [|reflexivity].
  destruct (clearCallback_frame t
              (set_timeouts (firstn i (timeouts w) ++ skipn (S i) (timeouts w)) w))
    as (H & _).
  rewrite H. reflexivity.
Qed.

(** A status update gives the same result whatever the configuration store
    holds: it does not read it. *)
Lemma updateKeyStatus_ignores_configuration (toString : Z -> jsstring)
    (prettify : jsstring -> jsstring)
    (values : Values) (w : World) (store : Configuration) :
  updateKeyStatus toString prettify values (set_configuration store w)
  = (fst (updateKeyStatus toString prettify values w),
     set_configuration store
       (snd (updateKeyStatus toString prettify values w))).
Proof.
  unfold updateKeyStatus. destruct w as [[bar|] d n ts c st]; cbn; [|reflexivity].
  destruct (d >? 0); [|reflexivity].
  destruct (length (plannedUpdate toString prettify values)); reflexivity.
Qed.

(** C4. An event changes [keyDisplayDelay] only if it is handled by
    [updateConfig] and is the startup call (outside testing) or a change
    event that affects the master-key section. A status update leaves
    [keyDisplayDelay] as it is and does not depend on the configuration
    store: with another store its result is the same. *)
Theorem C4_keyDisplayDelay_changes_only_on_notification
    (toString : Z -> jsstring)
    (prettify : jsstring -> jsstring) (TESTING : bool)
    (w : World) (ev : Event) :
  (keyDisplayDelay (step toString prettify TESTING w ev) <> keyDisplayDelay w ->
   (ev = Activate /\ TESTING = false)
   \/ (exists store event,
         ev = ConfigurationChanged store event
         /\ affectsConfiguration event "master-key"%string = true))
  /\ (forall values, ev = StateSet values ->
        keyDisplayDelay (step toString prettify TESTING w ev)
        = keyDisplayDelay w
        /\ forall store,
             step toString prettify TESTING (set_configuration store w) ev
             = set_configuration store (step toString prettify TESTING w ev)).
Proof.
  split.
  - intro Hch. destruct ev as [|values|store event|i]; cbn [step] in Hch.
    + left. split; [reflexivity|].
      unfold activate in Hch. rewrite updateConfig_eq in Hch.
      destruct TESTING; [|reflexivity]. exfalso. apply Hch. reflexivity.
    + exfalso. apply Hch.
      destruct (updateKeyStatus_keeps toString prettify values
                (set_state values w))
        as (_ & _ & H & _).
      rewrite H. reflexivity.
    + right. exists store, event. split; [reflexivity|].
      rewrite updateConfig_eq in Hch. cbn [readsConfiguration] in Hch.
      destruct (affectsConfiguration event "master-key"); [reflexivity|].
      exfalso. apply Hch. reflexivity.
    + exfalso. apply Hch. apply fireTimeout_keyDisplayDelay.
  - intros values ->. cbn [step]. split.
    + destruct (updateKeyStatus_keeps toString prettify values
                (set_state values w))
        as (_ & _ & H & _).
      rewrite H. reflexivity.
    + intro store.
      change (set_state values (set_configuration store w))
        with (set_configuration store (set_state values w)).
      rewrite updateKeyStatus_ignores_configuration. reflexivity.
Qed.

Lemma C4_witness :
  let w := activate false (loaded false noStore) in
  let ev := ConfigurationChanged (masterKeyStore (Some 250)) (affects "master-key") in
  keyDisplayDelay (step decimal glyphs false w ev) <> keyDisplayDelay w
  /\ ((ev = Activate /\ false = false)
      \/ (exists store event,
            ev = ConfigurationChanged store event
            /\ affectsConfiguration event "master-key"%string = true)).
Proof.
  intros w ev.
  assert (H : keyDisplayDelay (step decimal glyphs false w ev)
              <> keyDisplayDelay w) by (vm_compute; discriminate).
  split; [exact H|].
  exact (proj1 (C4_keyDisplayDelay_changes_only_on_notification
                  decimal glyphs false w ev) H).
Defined.

(** C8 (as amended). When the configuration handler reads the store (the
    startup call outside testing, or an event that affects the section), the
    effective delay is the configured value, except that a value of 0 or no
    value gives the built-in default, which is positive. Hence configuring 0
    does not give an effective delay of 0 and a status update then still
    shows a non-empty projection; the effective delay is never 0; and it is
    at most 0, which is what suppresses the display, exactly when the
    configured value is negative. *)
Theorem C8_zero_delay_falls_back_to_default
    (toString : Z -> jsstring)
    (prettify : jsstring -> jsstring) (TESTING : bool)
    (event : option ConfigurationChangeEvent) (w : World) (v : option Z)
    (Hread : readsConfiguration TESTING event = true)
    (Hstore : configuration w "master-key"%string "keyDisplayDelay"%string = v) :
  let w' := updateConfig TESTING event w in
  0 < KEY_DISPLAY_DELAY_DEFAULT TESTING
  /\ (v = None \/ v = Some 0 ->
      keyDisplayDelay w' = KEY_DISPLAY_DELAY_DEFAULT TESTING
      /\ forall values bar,
           keyStatusBar w = Some bar ->
           plannedUpdate toString prettify values <> [] ->
           option_map text
             (keyStatusBar (snd (updateKeyStatus toString prettify values w')))
           = Some (plannedUpdate toString prettify values))
  /\ (forall n, v = Some n -> n <> 0 -> keyDisplayDelay w' = n)
  /\ keyDisplayDelay w' <> 0
  /\ (keyDisplayDelay w' <= 0 <-> exists n, v = Some n /\ n < 0)
  /\ (keyDisplayDelay w' <= 0 ->
      forall values, snd (updateKeyStatus toString prettify values w') = w').
Proof.
  intro w'. subst w'. rewrite updateConfig_eq, Hread, Hstore.
  assert (Hd : 0 < KEY_DISPLAY_DELAY_DEFAULT TESTING)
    by (unfold KEY_DISPLAY_DELAY_DEFAULT; destruct TESTING; lia).
  split; [exact Hd|].
  split; [|split; [|split; [|split]]].
  - intros Hv.
    assert (Hk : keyDisplayDelay
                   (set_keyDisplayDelay
                      match v with
                      | Some v0 =>
                          if v0 =? 0 then KEY_DISPLAY_DELAY_DEFAULT TESTING else v0
                      | None => KEY_DISPLAY_DELAY_DEFAULT TESTING
                      end w) = KEY_DISPLAY_DELAY_DEFAULT TESTING)
      by (destruct Hv as [-> | ->]; reflexivity).
    split; [exact Hk|].
    intros values bar Hbar Hne.
    erewrite updateKeyStatus_shows; [reflexivity | exact Hbar | | exact Hne].
    rewrite Hk. exact Hd.
  - intros n -> Hn. cbn. apply Z.eqb_neq in Hn. rewrite Hn. reflexivity.
  - cbn. destruct v as [n|]; [|lia].
    destruct (n =? 0) eqn:E; [lia|]. apply Z.eqb_neq in E. exact E.
  - cbn. destruct v as [n|].
    + destruct (n =? 0) eqn:E.
      * apply Z.eqb_eq in E. split; [lia|].
        intros (m & Hm & Hneg). inversion Hm. lia.
      * split; [intro; exists n; split; [reflexivity | lia]|].
        intros (m & Hm & Hneg). inversion Hm. lia.
    + split; [lia|]. intros (m & Hm & _). discriminate.
  - intros Hle values. unfold updateKeyStatus.
    destruct (keyStatusBar _); [|reflexivity].
    destruct (_ >? 0) eqn:E; [|reflexivity].
    apply Z.gtb_lt in E. lia.
Qed.

Lemma C8_witness :
  let w := set_configuration (masterKeyStore (Some 0))
             (activate false (loaded false noStore)) in
  keyDisplayDelay (updateConfig false (Some (affects "master-key")) w) = 500.
Proof.
  intro w.
  exact (proj1 (proj1 (proj2
    (C8_zero_delay_falls_back_to_default decimal glyphs false
       (Some (affects "master-key")) w (Some 0) eq_refl eq_refl))
    (or_intror eq_refl))).
Defined.

(** C8, as stated, fails: a negative configured value gives an effective
    delay below 0, and the status update then shows nothing. *)
Lemma C8_negative_delay_suppresses_display :
  let w := set_configuration (masterKeyStore (Some (-1)))
             (activate false (loaded false noStore)) in
  let w' := updateConfig false (Some (affects "master-key")) w in
  let values := {| COUNT := Some 3; PREFIX := Some (js "ctrl+x") |} in
  keyDisplayDelay w' = -1
  /\ keyDisplayDelay w' <= 0
  /\ plannedUpdate decimal glyphs values = js "3× ^X"
  /\ option_map text
       (keyStatusBar (snd (updateKeyStatus decimal glyphs values w')))
     = Some [].
Proof. vm_compute. repeat split. discriminate. Qed.

(** ** Importing a preset *)

Section ImportBindings.

Variable searchMatches : TextDocument -> Position -> jsstring -> list Range.
Variable processBindings : BindingSpec -> list BindingItem.
Variable JSON_stringify_pick : BindingItem -> jsstring.

Lemma forallb_map_showParseError (f : Effect -> bool) (prefix : jsstring)
    (issues : list ParseError) :
  (forall issue, f (showParseError prefix issue) = true) ->
  forallb f (map (showParseError prefix) issues) = true.
Proof.
  intro H. induction issues as [|i issues IH]; cbn; [reflexivity|].
  rewrite H, IH. reflexivity.
Qed.

(** C3. When the parser answers with a failure, [importBindings] reports the
    first three issues (all of them when there are fewer), each by its own
    call of [showParseError], in order, and does nothing else: no edit of
    the keybindings document, no configuration update, no insertion
    started; and it returns. *)
Theorem C3_parse_failure_reports_first_three
    (fuel : nat) (file : Uri) (parseBindingFile : Uri -> ParseResult)
    (activeTextEditor : option TextDocument) (issues : list ParseError)
    (Hfail : parseBindingFile file = ParseFailure issues) :
  let r := importBindings searchMatches processBindings JSON_stringify_pick
             fuel (Some [file]) parseBindingFile activeTextEditor in
  i_effects r
  = map (showParseError (js "Parsing of bindings failed: ")) (firstn 3 issues)
  /\ length (i_effects r) = Nat.min 3 (length issues)
  /\ forallb (fun e => negb (isEdit e)) (i_effects r) = true
  /\ forallb (fun e => negb (isConfigUpdate e)) (i_effects r) = true
  /\ i_insertion r = None
  /\ i_completion r = Returned tt.
Proof.
  intro r. subst r. unfold importBindings. cbn [queryBindingFile].
  rewrite Hfail. cbn [i_effects i_completion i_insertion].
  split; [reflexivity|].
  split; [rewrite length_map, length_firstn; reflexivity|].
  split; [apply forallb_map_showParseError; reflexivity|].
  split; [apply forallb_map_showParseError; reflexivity|].
  split; reflexivity.
Qed.

End ImportBindings.

Lemma C3_witness :
  i_effects
    (importBindings searchLiteral bind_ item_key 0 (Some [js "file:///preset.toml"])
       (fun _ => ParseFailure [issueAt "0"; issueAt "1"; issueAt "2"; issueAt "3"])
       None)
  = map (showParseError (js "Parsing of bindings failed: "))
      [issueAt "0"; issueAt "1"; issueAt "2"].
Proof.
  exact (proj1 (C3_parse_failure_reports_first_three searchLiteral bind_
                  item_key 0 (js "file:///preset.toml")
                  (fun _ => ParseFailure
                              [issueAt "0"; issueAt "1"; issueAt "2"; issueAt "3"])
                  None _ eq_refl)).
Defined.

(** ** [replaceAll] *)

Lemma replaceAll_loop_not_Threw (fuel : nat) (str : jsstring)
    (replacement : jsstring) :
  forall regex m result offset e,
    replaceAll_loop fuel str regex replacement m result offset <> Threw e.
Proof.
  induction fuel as [|fuel IH]; intros regex m result offset e.
  - destruct m as [[index len]|]; cbn; discriminate.
  - destruct m as [[index len]|]; cbn; [|discriminate].
    destruct (RegExp_exec regex str) as [m' regex']. apply IH.
Qed.

(** Without a match the result is [str] without its final character. *)
Lemma replaceAll_no_match (fuel : nat) (str : jsstring) (regex : RegExp)
    (replacement : jsstring) :
  hasFlag flag_g regex = true ->
  fst (RegExp_exec regex str) = None ->
  replaceAll fuel str regex replacement
  = Returned (firstn (length str - 1) str).
Proof.
  intros Hg Hnone. unfold replaceAll. rewrite Hg. cbn [negb].
  destruct (RegExp_exec regex str) as [m regex']. cbn in Hnone. subst m.
  destruct fuel; cbn; unfold slice_to_last, slice; cbn [skipn app];
    rewrite Nat.min_l by lia; rewrite Nat.sub_0_r; reflexivity.
Qed.

(** A pattern that matches the empty string at index 0 is found there again
    by every [exec]: the loop never ends. *)
Lemma lineStartRegex_exec (str : jsstring) :
  RegExp_exec lineStartRegex str = (Some (O, O), lineStartRegex).
Proof. reflexivity. Qed.

Lemma replaceAll_loop_lineStart_diverges (str replacement : jsstring)
    (fuel : nat) :
  forall result offset,
    replaceAll_loop fuel str lineStartRegex replacement (Some (O, O)) result
      offset = OutOfFuel.
Proof.
  induction fuel as [|fuel IH]; intros result offset; [reflexivity|].
  cbn [replaceAll_loop]. rewrite lineStartRegex_exec. apply IH.
Qed.

Lemma replaceAll_lineStart_diverges (fuel : nat) (str replacement : jsstring) :
  replaceAll fuel str lineStartRegex replacement = OutOfFuel.
Proof.
  unfold replaceAll.
  change (hasFlag flag_g lineStartRegex) with true. cbn [negb].
  rewrite lineStartRegex_exec. apply replaceAll_loop_lineStart_diverges.
Qed.

(** C9, evaluated. [replaceAll("abc", /b/g, "X")] returns "aXb": the
    character after the match is lost and one before it repeated instead;
    and without any match the final character of the string is dropped. *)
Theorem C9_replaceAll_loses_characters :
  (forall fuel,
      replaceAll (S fuel) (js "abc") (literalRegex (js "b") "g") (js "X")
      = Returned (js "aXb"))
  /\ js "aXb" <> js "aXc"
  /\ (forall fuel,
        replaceAll fuel (js "a") (literalRegex (js "x") "g") (js "y")
        = Returned []).
Proof.
  split; [|split].
  - intro fuel. destruct fuel; reflexivity.
  - vm_compute. discriminate.
  - intro fuel. destruct fuel; reflexivity.
Qed.

(** ** Inserting the bindings *)

Section Insertion.

Variable searchMatches : TextDocument -> Position -> jsstring -> list Range.
Variable JSON_stringify_pick : BindingItem -> jsstring.

Lemma formatBindings_nonempty_diverges (fuel : nat) (file : Uri)
    (item : BindingItem) (rest : list BindingItem) :
  formatBindings JSON_stringify_pick fuel file (item :: rest) = OutOfFuel.
Proof.
  unfold formatBindings. cbn [formatBindings_loop].
  match goal with
  | |- context [replaceAll fuel ?c commentIndentRegex ?p] =>
      destruct (replaceAll fuel c commentIndentRegex p) as [c'| e |] eqn:E
  end; cbn [bind].
  - rewrite replaceAll_lineStart_diverges. reflexivity.
  - exfalso. unfold replaceAll in E.
    change (hasFlag flag_g commentIndentRegex) with true in E. cbn [negb] in E.
    destruct (RegExp_exec commentIndentRegex _) as [m r] in E.
    exact (replaceAll_loop_not_Threw _ _ _ _ _ _ _ _ E).
  - reflexivity.
Qed.

Lemma formatBindings_nil (fuel : nat) (file : Uri) :
  exists text, formatBindings JSON_stringify_pick fuel file [] = Returned text.
Proof. eexists. reflexivity. Qed.

(** The document is edited only if the bracket was found and the two markers
    are both present or both absent. *)
Lemma insertKeybindingsIntoConfig_edits_only_when (fuel : nat) (file : Uri)
    (config : list BindingItem) (activeTextEditor : option TextDocument) :
  existsb isEdit
    (effects (insertKeybindingsIntoConfig searchMatches JSON_stringify_pick
                fuel file config activeTextEditor)) = true ->
  exists document,
    activeTextEditor = Some document
    /\ findText searchMatches document (js "[") <> None
    /\ ((findText searchMatches document (js "AUTOMATED BINDINGS START") <> None
         /\ findText searchMatches document (js "AUTOMATED BINDINGS END") <> None)
        \/ (findText searchMatches document (js "AUTOMATED BINDINGS START") = None
            /\ findText searchMatches document (js "AUTOMATED BINDINGS END") = None)).
Proof.
  unfold insertKeybindingsIntoConfig, insertKeybindingsIntoConfig_resumed.
  destruct activeTextEditor as [document|]; [|discriminate].
  intro H. exists document. split; [reflexivity|].
  destruct (findText searchMatches document (js "[")) as [bracket|];
    [|discriminate].
  split; [discriminate|].
  destruct (formatBindings JSON_stringify_pick fuel file config);
    try discriminate.
  destruct (findText searchMatches document (js "AUTOMATED BINDINGS START")),
           (findText searchMatches document (js "AUTOMATED BINDINGS END"));
    try discriminate.
  - left. split; discriminate.
  - right. split; reflexivity.
Qed.

(** Without the opening bracket the error is reported and nothing else
    happens. *)
Lemma insertKeybindingsIntoConfig_no_bracket (fuel : nat) (file : Uri)
    (config : list BindingItem) (document : TextDocument) :
  findText searchMatches document (js "[") = None ->
  insertKeybindingsIntoConfig searchMatches JSON_stringify_pick fuel file
    config (Some document)
  = {| effects := [openKeybindingsFile; showErrorMessage bracketMessage];
       completion := Returned tt |}.
Proof.
  intro H. unfold insertKeybindingsIntoConfig, insertKeybindingsIntoConfig_resumed.
  rewrite H. reflexivity.
Qed.

(** With the bracket, exactly one marker and no binding to format, the
    error is reported and nothing else happens. *)
Lemma insertKeybindingsIntoConfig_one_marker_no_items (fuel : nat) (file : Uri)
    (document : TextDocument) (bracket : Range) :
  findText searchMatches document (js "[") = Some bracket ->
  (findText searchMatches document (js "AUTOMATED BINDINGS START") = None
   <-> findText searchMatches document (js "AUTOMATED BINDINGS END") <> None) ->
  insertKeybindingsIntoConfig searchMatches JSON_stringify_pick fuel file
    [] (Some document)
  = {| effects := [openKeybindingsFile; showErrorMessage alteredMessage];
       completion := Returned tt |}.
Proof.
  intros Hb Hone.
  unfold insertKeybindingsIntoConfig, insertKeybindingsIntoConfig_resumed.
  rewrite Hb. cbn [formatBindings formatBindings_loop bind].
  destruct (findText searchMatches document (js "AUTOMATED BINDINGS START")),
           (findText searchMatches document (js "AUTOMATED BINDINGS END"));
    try reflexivity; exfalso.
  - destruct Hone as [_ H]. discriminate H. discriminate.
  - destruct Hone as [H _]. apply H; reflexivity.
Qed.

(** With the bracket and at least one binding to format, the call never
    gets past [formatBindings]: nothing is reported and nothing edited,
    whatever the markers. *)
Lemma insertKeybindingsIntoConfig_items_diverges (fuel : nat) (file : Uri)
    (item : BindingItem) (rest : list BindingItem) (document : TextDocument)
    (bracket : Range) :
  findText searchMatches document (js "[") = Some bracket ->
  insertKeybindingsIntoConfig searchMatches JSON_stringify_pick fuel file
    (item :: rest) (Some document)
  = {| effects := [openKeybindingsFile]; completion := OutOfFuel |}.
Proof.
  intro Hb.
  unfold insertKeybindingsIntoConfig, insertKeybindingsIntoConfig_resumed.
  rewrite Hb, formatBindings_nonempty_diverges. reflexivity.
Qed.

End Insertion.

(** C10, evaluated. The keybindings document has its opening bracket and the
    start marker only, and one binding is to be inserted: whatever the fuel
    (and whatever text the binding prints as), the call does not get past
    [formatBindings], so that no error is reported (and the document is not
    edited). *)
Theorem C10_one_marker_error_not_reported :
  findText searchLiteral oneMarkerDocument (js "[") <> None
  /\ findText searchLiteral oneMarkerDocument (js "AUTOMATED BINDINGS START")
     <> None
  /\ findText searchLiteral oneMarkerDocument (js "AUTOMATED BINDINGS END")
     = None
  /\ forall JSON_stringify_pick fuel,
       let r := insertKeybindingsIntoConfig searchLiteral JSON_stringify_pick
                  fuel (js "file:///preset.toml") [someItem]
                  (Some oneMarkerDocument) in
       completion r = OutOfFuel
       /\ existsb isErrorMessage (effects r) = false
       /\ existsb isEdit (effects r) = false.
Proof.
  split; [vm_compute; discriminate|].
  split; [vm_compute; discriminate|].
  split; [vm_compute; reflexivity|].
  intros JSON_stringify_pick fuel. cbv zeta.
  destruct (findText searchLiteral oneMarkerDocument (js "[")) as [bracket|] eqn:E;
    [|vm_compute in E; discriminate].
  rewrite (insertKeybindingsIntoConfig_items_diverges searchLiteral _ fuel _ _ _ _
             bracket E).
  repeat split.
Qed.

(** ** The count *)

Lemma base10_snoc (ds : list Z) (d : Z) :
  base10 (ds ++ [d]) = base10 ds * 10 + d.
Proof.
  induction ds as [|x ds IH]; cbn [base10 app]; [cbn; lia|].
  rewrite IH, length_app. cbn [length].
  replace (Z.of_nat (length ds + 1)) with (Z.of_nat (length ds) + 1) by lia.
  rewrite Z.pow_add_r by lia. lia.
Qed.

Lemma typeDigits_snoc (ds : list Z) (d : Z) (values : Values) :
  typeDigits (ds ++ [d]) values = pressDigit d (typeDigits ds values).
Proof. unfold typeDigits. rewrite fold_left_app. reflexivity. Qed.

Lemma typeDigits_count (ds : list Z) :
  getCount (typeDigits ds emptyValues) = base10 ds.
Proof.
  induction ds as [|d ds IH] using rev_ind; [reflexivity|].
  rewrite typeDigits_snoc, base10_snoc. cbn. rewrite IH. reflexivity.
Qed.

Lemma typeDigits_prefix (ds : list Z) (values : Values) :
  PREFIX (typeDigits ds values) = PREFIX values.
Proof.
  revert values. induction ds as [|d ds IH]; intro values; [reflexivity|].
  cbn. unfold typeDigits in IH. rewrite IH. reflexivity.
Qed.

(** *** Decimal digits *)

Lemma digits_fuel_irrelevant (a : nat) :
  forall b n, 0 <= n -> n < 2 ^ Z.of_nat (S a) -> n < 2 ^ Z.of_nat (S b) ->
  digits_fuel (S a) n = digits_fuel (S b) n.
Proof.
  induction a as [|a IH]; intros b n H0 Ha Hb.
  - change (2 ^ Z.of_nat 1) with 2 in Ha. cbn [digits_fuel].
    destruct (n <? 10) eqn:E; [reflexivity|]. apply Z.ltb_ge in E. lia.
  - cbn [digits_fuel]. destruct (n <? 10) eqn:E; [reflexivity|].
    apply Z.ltb_ge in E. f_equal.
    destruct b as [|b].
    + change (2 ^ Z.of_nat 1) with 2 in Hb. lia.
    + rewrite Nat2Z.inj_succ, Z.pow_succ_r in Ha, Hb by lia.
      apply IH.
      * apply Z.div_pos; lia.
      * apply Z.div_lt_upper_bound; lia.
      * apply Z.div_lt_upper_bound; lia.
Qed.

Lemma digits_eq_fuel (a : nat) (n : Z) :
  0 < n -> n < 2 ^ Z.of_nat (S a) -> digits n = digits_fuel (S a) n.
Proof.
  intros H0 Ha. unfold digits. apply digits_fuel_irrelevant; [lia| |exact Ha].
  rewrite Nat2Z.inj_succ, Z2Nat.id by apply Z.log2_nonneg.
  apply Z.log2_spec. exact H0.
Qed.

Lemma digits_single (d : Z) : isDigit d -> digits d = [digitChar d].
Proof.
  intros [H0 H9]. unfold digits. cbn [digits_fuel].
  destruct (d <? 10) eqn:E; [reflexivity|]. apply Z.ltb_ge in E. lia.
Qed.

Lemma digits_snoc (c d : Z) :
  0 < c -> isDigit d -> digits (c * 10 + d) = digits c ++ [digitChar d].
Proof.
  intros Hc [H0 H9].
  assert (Hdiv : (c * 10 + d) / 10 = c).
  { rewrite Z.div_add_l by lia. rewrite Z.div_small; lia. }
  assert (Hmod : (c * 10 + d) mod 10 = d).
  { rewrite Z.add_comm, Z_mod_plus_full. apply Z.mod_small. lia. }
  remember (c * 10 + d) as n eqn:Hn.
  assert (Hge : 10 <= n) by lia.
  pose proof (Z.log2_spec n ltac:(lia)) as [Hlo Hhi].
  assert (HL : 3 <= Z.log2 n).
  { apply Z.log2_le_pow2; [lia|]. change (2 ^ 3) with 8. lia. }
  unfold digits at 1.
  destruct (Z.to_nat (Z.log2 n)) as [|a] eqn:Ea; [lia|].
  cbn [digits_fuel].
  destruct (n <? 10) eqn:E; [apply Z.ltb_lt in E; lia|].
  rewrite Hdiv, Hmod. f_equal.
  symmetry. apply digits_eq_fuel; [exact Hc|].
  assert (HSa : Z.of_nat (S a) = Z.log2 n) by lia.
  rewrite HSa.
  replace (Z.succ (Z.log2 n)) with (Z.log2 n + 1) in Hhi by lia.
  rewrite Z.pow_add_r in Hhi by lia. change (2 ^ 1) with 2 in Hhi.
  lia.
Qed.

Lemma base10_nonneg (ds : list Z) : Forall isDigit ds -> 0 <= base10 ds.
Proof.
  induction 1 as [|d ds [H0 H9] _ IH]; cbn [base10]; [lia|].
  assert (0 < 10 ^ Z.of_nat (length ds)) by (apply Z.pow_pos_nonneg; lia).
  nia.
Qed.

Lemma base10_pos (d : Z) (ds : list Z) :
  0 < d -> Forall isDigit ds -> 0 < base10 (d :: ds).
Proof.
  intros Hd Hds. cbn [base10]. pose proof (base10_nonneg ds Hds).
  assert (0 < 10 ^ Z.of_nat (length ds)) by (apply Z.pow_pos_nonneg; lia).
  nia.
Qed.

(** The decimal digits of the count are the digits typed, as long as the
    first is not 0. *)
Lemma digits_base10 (d : Z) (ds : list Z) :
  0 < d -> Forall isDigit (d :: ds) ->
  digits (base10 (d :: ds)) = map digitChar (d :: ds).
Proof.
  intro Hd. induction ds as [|x ds IH] using rev_ind; intro H.
  - cbn [base10 length map]. replace (d * 10 ^ Z.of_nat 0 + 0) with d by (cbn; lia).
    apply digits_single. inversion H; assumption.
  - change (d :: ds ++ [x]) with ((d :: ds) ++ [x]) in *.
    apply Forall_app in H. destruct H as [H Hx].
    rewrite base10_snoc, map_app. cbn [map].
    rewrite digits_snoc.
    + rewrite IH by exact H. reflexivity.
    + apply base10_pos; [exact Hd|]. inversion H; assumption.
    + inversion Hx; assumption.
Qed.

(** *** Counts in double arithmetic *)

(** An integer of absolute value up to MAX_SAFE_INTEGER is a double: it is
    held as it is. *)
Lemma toDouble_safe (n : Z) : Z.abs n <= MAX_SAFE_INTEGER -> toDouble n = n.
Proof.
  intro H. unfold toDouble. cbv zeta.
  assert (Hlog : Z.log2 (Z.abs n) - 52 <= 0).
  { destruct (Z.eq_dec (Z.abs n) 0) as [E|E]; [rewrite E; cbn; lia|].
    assert (Z.log2 (Z.abs n) < 53); [|lia].
    apply Z.log2_lt_pow2; [lia|]. unfold MAX_SAFE_INTEGER in H. lia. }
  apply Z.leb_le in Hlog. rewrite Hlog. reflexivity.
Qed.

(** Within the safe integers, a count and a count given make the count that
    the exact arithmetic gives. *)
Lemma count_step_safe (c n : Z) :
  0 <= c -> 0 <= n -> c * 10 + n <= MAX_SAFE_INTEGER ->
  toDouble (toDouble (c * 10) + n) = c * 10 + n.
Proof.
  intros Hc Hn Hle.
  rewrite (toDouble_safe (c * 10)) by lia.
  apply toDouble_safe. lia.
Qed.

Lemma count_fold_le (ns : list Z) :
  forall c, 0 <= c -> Forall (fun n => 0 <= n) ns ->
            c <= fold_left (fun c n => c * 10 + n) ns c.
Proof.
  induction ns as [|n ns IH]; intros c Hc Hns; [cbn; lia|].
  inversion Hns as [|? ? Hn Hns']; subst. cbn [fold_left].
  specialize (IH (c * 10 + n) ltac:(lia) Hns'). lia.
Qed.

Lemma typeDigits_fold (ds : list Z) :
  forall values,
    getCount (typeDigits ds values)
    = fold_left (fun c d => c * 10 + d) ds (getCount values).
Proof.
  induction ds as [|d ds IH]; intro values; [reflexivity|].
  cbn [fold_left]. change (typeDigits (d :: ds) values)
    with (typeDigits ds (pressDigit d values)).
  rewrite IH. reflexivity.
Qed.

Lemma base10_fold (ds : list Z) :
  base10 ds = fold_left (fun c d => c * 10 + d) ds 0.
Proof.
  rewrite <- typeDigits_count.
  exact (typeDigits_fold ds emptyValues).
Qed.

Lemma isDigit_nonneg (ds : list Z) :
  Forall isDigit ds -> Forall (fun n => 0 <= n) ds.
Proof. apply Forall_impl. intros d [H _]. exact H. Qed.

Lemma waitedLabels_app (a b : list Action) :
  waitedLabels (a ++ b) = waitedLabels a ++ waitedLabels b.
Proof. apply flat_map_app. Qed.

Section Count.

Variable Number_toString : Z -> jsstring.
Variable utils_prettifyPrefix : jsstring -> jsstring.
Variable toUpperCase : jsstring -> jsstring.
Variable toLowerCase : jsstring -> jsstring.
Variable MODAL_KEY_MAP : jsstring -> option jsstring.
Variable statusBar_getItem : list Action -> jsstring -> bool.

Hypothesis Number_toString_safe :
  forall n, Z.abs n <= MAX_SAFE_INTEGER -> Number_toString n = decimal n.
Hypothesis toLowerCase_ascii :
  forall s, forallb isAscii s = true -> toLowerCase s = asciiToLowerCase s.

Lemma countPrefix_safe (c : Z) :
  Z.abs c <= MAX_SAFE_INTEGER ->
  countPrefix Number_toString c = countPrefix decimal c.
Proof.
  intro H. unfold countPrefix. rewrite (Number_toString_safe _ H). reflexivity.
Qed.

Lemma toLowerCase_digit (d : Z) :
  isDigit d -> toLowerCase [digitChar d] = [digitChar d].
Proof.
  intros [H0 H9].
  assert (Hd : d = 0 \/ d = 1 \/ d = 2 \/ d = 3 \/ d = 4 \/ d = 5 \/ d = 6
               \/ d = 7 \/ d = 8 \/ d = 9) by lia.
  repeat (destruct Hd as [-> | Hd]); try subst d;
    rewrite toLowerCase_ascii by reflexivity; reflexivity.
Qed.

(** One digit key, typed while the count stays a safe integer. *)
Lemma enterModalKeys_step_digit (st : EnterState) (d : Z) :
  registersAll statusBar_getItem ->
  isDigit d -> 0 <= e_count st ->
  e_count st * 10 + d <= MAX_SAFE_INTEGER ->
  e_keySeqString st = [] ->
  exists st',
    enterModalKeys_step Number_toString toUpperCase toLowerCase MODAL_KEY_MAP
      statusBar_getItem st (digitKey d) = inl st'
    /\ e_count st' = e_count st * 10 + d
    /\ e_keySeqString st' = []
    /\ e_checkCleared st' = true
    /\ waitedLabels (e_log st')
       = waitedLabels (e_log st)
         ++ [js "Keys Typed: " ++ countPrefix decimal (e_count st * 10 + d)].
Proof.
  intros Hreg Hd Hc Hle Hseq.
  unfold enterModalKeys_step.
  cbn [digitKey modalKeyToStringArray withKey modalKeyCount
         modalKeyUpdateStatus key count updatesStatus strings map].
  cbn [strings]. rewrite (toLowerCase_digit d Hd).
  match goal with
  | |- context [list_eq_dec ?dec ?a ?b] =>
      destruct (list_eq_dec dec a b) as [_|Hne];
        [|exfalso; apply Hne; reflexivity]
  end.
  cbn [negb]. destruct Hd as [Hd0 Hd9].
  rewrite (count_step_safe _ _ Hc Hd0 Hle).
  unfold waitUntil. rewrite Hreg.
  eexists. split; [reflexivity|].
  cbn [e_count e_keySeqString e_checkCleared e_log].
  split; [reflexivity|]. split; [exact Hseq|]. split; [reflexivity|].
  rewrite !waitedLabels_app. cbn [waitedLabels flat_map app].
  rewrite Hseq, !app_nil_r.
  rewrite countPrefix_safe by lia. reflexivity.
Qed.

Lemma enterModalKeys_loop_digits (ds : list Z) :
  registersAll statusBar_getItem ->
  forall st,
    Forall isDigit ds -> 0 <= e_count st ->
    fold_left (fun c d => c * 10 + d) ds (e_count st) <= MAX_SAFE_INTEGER ->
    e_keySeqString st = [] ->
    exists st',
      enterModalKeys_loop Number_toString toUpperCase toLowerCase MODAL_KEY_MAP
        statusBar_getItem st (map digitKey ds) = inl st'
      /\ e_count st' = fold_left (fun c d => c * 10 + d) ds (e_count st)
      /\ e_checkCleared st'
         = match ds with [] => e_checkCleared st | _ :: _ => true end
      /\ waitedLabels (e_log st')
         = waitedLabels (e_log st) ++ digitLabels (e_count st) ds.
Proof.
  intro Hreg.
  induction ds as [|d ds IH]; intros st Hds Hc Hle Hseq.
  - exists st. cbn. rewrite app_nil_r. repeat split.
  - inversion Hds as [|? ? Hd Hds']; subst. cbn [fold_left] in Hle.
    assert (Hstep : e_count st * 10 + d <= MAX_SAFE_INTEGER).
    { pose proof (count_fold_le ds (e_count st * 10 + d)
                    ltac:(destruct Hd; lia) (isDigit_nonneg ds Hds')).
      lia. }
    destruct (enterModalKeys_step_digit st d Hreg Hd Hc Hstep Hseq)
      as (st1 & E1 & Hc1 & Hs1 & Hk1 & Hl1).
    destruct (IH st1 Hds') as (st2 & E2 & Hc2 & Hk2 & Hl2).
    + rewrite Hc1. destruct Hd; lia.
    + rewrite Hc1. exact Hle.
    + exact Hs1.
    + exists st2. cbn [map enterModalKeys_loop]. rewrite E1.
      split; [exact E2|].
      split; [rewrite Hc2, Hc1; reflexivity|].
      split.
      * rewrite Hk2. destruct ds; [exact Hk1 | reflexivity].
      * rewrite Hl2, Hl1, Hc1. cbn [digitLabels].
        rewrite <- app_assoc. reflexivity.
Qed.


End Count.



(** * Further properties *)

(** ** The status bar module *)

(** X1. A status-clear callback whose captured generation is not the current
    one changes nothing when it runs, and firing such a timer only takes it
    off the pending list. *)
Theorem stale_timer_only_leaves_the_queue (i : nat) (t : Timeout) (w : World)
    (Hpending : nth_error (timeouts w) i = Some t)
    (Hstale : currentUpdate t <> statusUpdates w) :
  clearCallback t w = w
  /\ fireTimeout i w
     = set_timeouts (firstn i (timeouts w) ++ skipn (S i) (timeouts w)) w
  /\ keyStatusBar (fireTimeout i w) = keyStatusBar w
  /\ statusUpdates (fireTimeout i w) = statusUpdates w.
Proof.
  assert (H : fireTimeout i w
              = set_timeouts (firstn i (timeouts w) ++ skipn (S i) (timeouts w)) w).
  { unfold fireTimeout. rewrite Hpending. apply stale_clearCallback. exact Hstale. }
  split; [apply stale_clearCallback; exact Hstale|].
  split; [exact H|]. rewrite H. split; reflexivity.
Qed.

Lemma stale_timer_witness :
  let w := set_statusUpdates 7
             (run decimal glyphs false (loaded false noStore)
                [Activate; StateSet emptyValues]) in
  keyStatusBar (fireTimeout 0 w) = keyStatusBar w.
Proof.
  intro w.
  refine (proj1 (proj2 (proj2
    (stale_timer_only_leaves_the_queue 0
       {| currentUpdate := MIN_SAFE_INTEGER; t_plannedUpdate := [];
          ms := 500 |} w eq_refl _)))).
  vm_compute. discriminate.
Defined.

Lemma clearCallback_moves_counter (t : Timeout) (w : World) :
  currentUpdate t = statusUpdates w ->
  statusUpdates (clearCallback t w) <> statusUpdates w.
Proof.
  intro H. unfold clearCallback. rewrite H, Z.eqb_refl.
  destruct (statusUpdates w <? MAX_SAFE_INTEGER) eqn:E.
  - destruct w as [[bar|] d n ts c st]; cbn in *; lia.
  - apply Z.ltb_ge in E. pose proof safe_order.
    destruct w as [[bar|] d n ts c st]; cbn in *; lia.
Qed.

(** X2. Of two status clears that captured the same generation only the
    first to run has an effect: running the second after the first changes
    nothing more. *)
Theorem same_generation_clears_once (t1 t2 : Timeout) (w : World)
    (Hsame : currentUpdate t1 = currentUpdate t2) :
  clearCallback t2 (clearCallback t1 w) = clearCallback t1 w.
Proof.
  destruct (Z.eq_dec (currentUpdate t1) (statusUpdates w)) as [E|E].
  - apply stale_clearCallback. rewrite <- Hsame, E.
    intro H. symmetry in H. revert H. apply clearCallback_moves_counter. exact E.
  - rewrite (stale_clearCallback t1 w E).
    apply stale_clearCallback. rewrite <- Hsame. exact E.
Qed.

Lemma same_generation_witness :
  let w := run decimal glyphs false (loaded false noStore)
             [Activate; StateSet emptyValues; StateSet emptyValues] in
  let t := {| currentUpdate := MIN_SAFE_INTEGER; t_plannedUpdate := [];
              ms := 500 |} in
  timeouts w = [t; t]
  /\ clearCallback t (clearCallback t w) = clearCallback t w.
Proof.
  intros w t. split; [reflexivity|].
  exact (same_generation_clears_once t t w eq_refl).
Defined.

(** X3. The generation counter changes only when a pending timer fires
    whose captured generation is the current one. *)
Theorem counter_moves_only_by_matching_timer
    (toString : Z -> jsstring)
    (prettify : jsstring -> jsstring) (TESTING : bool)
    (w : World) (ev : Event)
    (Hmoved : statusUpdates (step toString prettify TESTING w ev)
              <> statusUpdates w) :
  exists i t,
    ev = TimeoutFired i
    /\ nth_error (timeouts w) i = Some t
    /\ currentUpdate t = statusUpdates w.
Proof.
  destruct ev as [|values|store event|i]; cbn [step] in Hmoved.
  - exfalso. apply Hmoved. unfold activate. rewrite updateConfig_eq.
    destruct (readsConfiguration TESTING None); reflexivity.
  - exfalso. apply Hmoved.
    destruct (updateKeyStatus_keeps toString prettify values
                (set_state values w))
      as (_ & H & _).
    rewrite H. reflexivity.
  - exfalso. apply Hmoved. rewrite updateConfig_eq.
    destruct (readsConfiguration TESTING (Some event)); reflexivity.
  - unfold fireTimeout in Hmoved.
    destruct (nth_error (timeouts w) i) as [t|] eqn:E;
      [|exfalso; apply Hmoved; reflexivity].
    exists i, t. split; [reflexivity|]. split; [exact E|].
    destruct (Z.eq_dec (currentUpdate t) (statusUpdates w)) as [Heq|Hne];
      [exact Heq|].
    exfalso. apply Hmoved. rewrite stale_clearCallback; [reflexivity|].
    exact Hne.
Qed.

Lemma counter_moves_witness :
  let w := run decimal glyphs false (loaded false noStore)
             [Activate; StateSet emptyValues] in
  exists i t,
    TimeoutFired 0 = TimeoutFired i
    /\ nth_error (timeouts w) i = Some t
    /\ currentUpdate t = statusUpdates w.
Proof.
  intro w.
  apply (counter_moves_only_by_matching_timer decimal glyphs false w
           (TimeoutFired 0)).
  vm_compute. discriminate.
Defined.

Lemma Forall_remove_nth {A : Type} (P : A -> Prop) (l : list A) :
  Forall P l -> forall i, Forall P (firstn i l ++ skipn (S i) l).
Proof.
  induction 1 as [|a l Ha Hl IH]; intro i.
  - destruct i; constructor.
  - destruct i as [|i]; cbn [firstn skipn app]; [exact Hl|].
    constructor; [exact Ha | apply IH].
Qed.

Lemma step_tidy (toString : Z -> jsstring)
    (prettify : jsstring -> jsstring) (TESTING : bool)
    (w : World) (ev : Event) :
  tidy w -> tidy (step toString prettify TESTING w ev).
Proof.
  intros [Hts Hbar]. destruct ev as [|values|store event|i]; cbn [step].
  - unfold activate. rewrite updateConfig_eq.
    destruct (readsConfiguration TESTING None); split; cbn;
      try exact Hts; left; split; reflexivity.
  - unfold updateKeyStatus. cbn [keyStatusBar set_state keyDisplayDelay].
    destruct (keyStatusBar w) as [bar|] eqn:Eb; [|split; cbn; [exact Hts|]].
    2:{ rewrite Eb. exact I. }
    destruct (keyDisplayDelay w >? 0) eqn:Ed;
      [|split; cbn; [exact Hts | rewrite Eb; exact Hbar]].
    destruct (0 <? length (plannedUpdate toString prettify values))%nat eqn:El.
    + split; cbn; [exact Hts|]. right. split; [|reflexivity].
      apply length_pos_nonempty. exact El.
    + split; cbn.
      * apply Forall_app. split; [exact Hts|]. constructor; [|constructor].
        cbn. split; [apply length_zero_empty; exact El|].
        apply Z.gtb_lt. exact Ed.
      * rewrite Eb. exact Hbar.
  - rewrite updateConfig_eq.
    destruct (readsConfiguration TESTING (Some event)); split; cbn; assumption.
  - unfold fireTimeout. destruct (nth_error (timeouts w) i) as [t|] eqn:E;
      [|split; assumption].
    assert (Ht : t_plannedUpdate t = [] /\ 0 < ms t).
    { apply (proj1 (Forall_forall _ _) Hts). apply (nth_error_In _ _ E). }
    pose proof (Forall_remove_nth _ _ Hts i) as Hrest.
    unfold clearCallback. cbn [statusUpdates set_timeouts].
    destruct (currentUpdate t =? statusUpdates w);
      [|split; cbn; assumption].
    destruct (statusUpdates w <? MAX_SAFE_INTEGER);
      cbn [keyStatusBar set_statusUpdates set_timeouts];
      (destruct (keyStatusBar w) as [bar|] eqn:Eb;
       [|split; cbn; [exact Hrest | rewrite Eb; exact I]]);
      (split; cbn; [exact Hrest|]; left; split; [apply Ht | reflexivity]).
Qed.

Lemma run_tidy (toString : Z -> jsstring)
    (prettify : jsstring -> jsstring) (TESTING : bool)
    (evs : list Event) :
  forall w, tidy w -> tidy (run toString prettify TESTING w evs).
Proof.
  induction evs as [|ev evs IH]; intros w H; [exact H|].
  apply IH, step_tidy, H.
Qed.

(** X4. In every state the module reaches from its load, the label of the
    status bar agrees with its text ('No Keys Typed' with an empty text,
    'Keys Typed: ' and the text otherwise), and every pending timer will
    clear the text and has a positive delay. *)
Theorem status_bar_label_agrees_with_text
    (toString : Z -> jsstring)
    (prettify : jsstring -> jsstring) (TESTING : bool)
    (store : Configuration) (evs : list Event) :
  let w := run toString prettify TESTING (loaded TESTING store) evs in
  Forall (fun t => t_plannedUpdate t = [] /\ 0 < ms t) (timeouts w)
  /\ forall bar, keyStatusBar w = Some bar ->
       (text bar = [] /\ accessibilityInformation bar = js "No Keys Typed")
       \/ (text bar <> []
           /\ accessibilityInformation bar = js "Keys Typed: " ++ text bar).
Proof.
  intro w.
  assert (H : tidy w).
  { subst w. apply run_tidy. split; [constructor | exact I]. }
  destruct H as [Hts Hbar]. split; [exact Hts|].
  intros bar Eb. rewrite Eb in Hbar. exact Hbar.
Qed.

(** X5. Before the module is activated nothing reaches the status surface:
    after any events other than an activation there is no status bar item,
    no timer is pending and the generation counter is where it started. *)
Theorem nothing_happens_before_activation
    (toString : Z -> jsstring)
    (prettify : jsstring -> jsstring) (TESTING : bool)
    (store : Configuration) (evs : list Event)
    (Hnone : existsb isActivate evs = false) :
  let w := run toString prettify TESTING (loaded TESTING store) evs in
  keyStatusBar w = None
  /\ timeouts w = []
  /\ statusUpdates w = MIN_SAFE_INTEGER.
Proof.
  cbv zeta.
  assert (H0 : keyStatusBar (loaded TESTING store) = None
               /\ timeouts (loaded TESTING store) = []
               /\ statusUpdates (loaded TESTING store) = MIN_SAFE_INTEGER)
    by (repeat split).
  revert H0. generalize (loaded TESTING store).
  induction evs as [|ev evs IH]; intros w H0; [exact H0|].
  cbn [existsb] in Hnone. apply orb_false_iff in Hnone.
  destruct Hnone as [Hev Hrest].
  cbn [run fold_left]. apply (IH Hrest).
  destruct H0 as (Hb & Hts & Hn).
  destruct ev as [|values|store' event|i]; [discriminate| | |]; cbn [step].
  - unfold updateKeyStatus. cbn [keyStatusBar set_state]. rewrite Hb.
    cbn. auto.
  - rewrite updateConfig_eq.
    destruct (readsConfiguration TESTING (Some event)); cbn; auto.
  - unfold fireTimeout. rewrite Hts. destruct i; cbn; auto.
Qed.

Lemma before_activation_witness :
  keyStatusBar
    (run decimal glyphs false (loaded false noStore)
       [StateSet {| COUNT := Some 3; PREFIX := Some (js "ctrl+x") |};
        TimeoutFired 0])
  = None.
Proof.
  exact (proj1 (nothing_happens_before_activation decimal glyphs false noStore
                  [StateSet {| COUNT := Some 3; PREFIX := Some (js "ctrl+x") |};
                   TimeoutFired 0] eq_refl)).
Defined.

(** ** [replaceAll] and [formatBindings] *)

Lemma scanFrom_found (m : nat -> option nat) (n : nat) :
  forall i j len,
    scanFrom m i n = Some (j, len) ->
    m j = Some len /\ (i <= j < i + n)%nat.
Proof.
  induction n as [|n IH]; intros i j len H; [discriminate|].
  cbn [scanFrom] in H. destruct (m i) as [l|] eqn:E.
  - inversion H. subst. split; [exact E | lia].
  - destruct (IH _ _ _ H) as [H1 H2]. split; [exact H1 | lia].
Qed.

Lemma scanFrom_here (m : nat -> option nat) (i n len : nat) :
  m i = Some len -> scanFrom m i (S n) = Some (i, len).
Proof. intro H. cbn [scanFrom]. rewrite H. reflexivity. Qed.

(** What a successful [exec] of a regular expression with the [g] flag says:
    the pattern matches at the index found, which is not before [lastIndex]
    nor beyond the end of the string, and [lastIndex] moves to the end of
    the match. *)
Lemma RegExp_exec_found (regex : RegExp) (str : jsstring) (j len : nat) :
  hasFlag flag_g regex = true ->
  fst (RegExp_exec regex str) = Some (j, len) ->
  matchAt regex str j = Some len
  /\ (lastIndex regex <= j <= length str)%nat
  /\ snd (RegExp_exec regex str) = set_lastIndex (j + len) regex.
Proof.
  intros Hg. unfold RegExp_exec. rewrite Hg. cbn [orb].
  destruct (length str <? lastIndex regex)%nat eqn:El; [discriminate|].
  apply Nat.ltb_ge in El.
  destruct (hasFlag flag_y regex).
  - destruct (matchAt regex str (lastIndex regex)) as [l|] eqn:E;
      [|discriminate].
    cbn [fst snd]. intro H. inversion H. subst. auto.
  - destruct (scanFrom (matchAt regex str) (lastIndex regex)
                (S (length str) - lastIndex regex)) as [[j' l']|] eqn:E;
      [|discriminate].
    cbn [fst snd]. intro H. inversion H. subst.
    destruct (scanFrom_found _ _ _ _ _ E) as [H1 H2].
    split; [exact H1|]. split; [lia | reflexivity].
Qed.

Lemma RegExp_exec_none (regex : RegExp) (str : jsstring) :
  hasFlag flag_g regex = true ->
  fst (RegExp_exec regex str) = None ->
  snd (RegExp_exec regex str) = set_lastIndex 0 regex.
Proof.
  intros Hg. unfold RegExp_exec. rewrite Hg. cbn [orb].
  destruct (if (length str <? lastIndex regex)%nat then None
            else if hasFlag flag_y regex
                 then match matchAt regex str (lastIndex regex) with
                      | Some len => Some (lastIndex regex, len)
                      | None => None
                      end
                 else scanFrom (matchAt regex str) (lastIndex regex)
                        (S (length str) - lastIndex regex))
    as [[j l]|]; [discriminate | reflexivity].
Qed.

(** An empty match is found again by the next [exec]. *)
Lemma RegExp_exec_empty_again (regex : RegExp) (str : jsstring) (j : nat) :
  hasFlag flag_g regex = true ->
  matchAt regex str j = Some O ->
  (j <= length str)%nat ->
  RegExp_exec (set_lastIndex j regex) str
  = (Some (j, O), set_lastIndex j regex).
Proof.
  intros Hg Hm Hj. unfold RegExp_exec.
  change (hasFlag flag_g (set_lastIndex j regex)) with (hasFlag flag_g regex).
  change (hasFlag flag_y (set_lastIndex j regex)) with (hasFlag flag_y regex).
  change (matchAt (set_lastIndex j regex)) with (matchAt regex).
  change (lastIndex (set_lastIndex j regex)) with j.
  rewrite Hg. cbn [orb].
  destruct (length str <? j)%nat eqn:El; [apply Nat.ltb_lt in El; lia|].
  assert (Hset : set_lastIndex (j + 0) (set_lastIndex j regex)
                 = set_lastIndex j regex).
  { rewrite Nat.add_0_r. reflexivity. }
  destruct (hasFlag flag_y regex).
  - rewrite Hm, Hset. reflexivity.
  - replace (S (length str) - j)%nat with (S (length str - j)) by lia.
    rewrite (scanFrom_here _ _ _ _ Hm), Hset. reflexivity.
Qed.

Lemma replaceAll_loop_empty_diverges (str replacement : jsstring)
    (regex : RegExp) (j : nat) :
  hasFlag flag_g regex = true ->
  matchAt regex str j = Some O ->
  (j <= length str)%nat ->
  forall fuel result offset,
    replaceAll_loop fuel str (set_lastIndex j regex) replacement
      (Some (j, O)) result offset = OutOfFuel.
Proof.
  intros Hg Hm Hj.
  induction fuel as [|fuel IH]; intros result offset; [reflexivity|].
  cbn [replaceAll_loop]. rewrite (RegExp_exec_empty_again _ _ _ Hg Hm Hj).
  apply IH.
Qed.

(** X6. [replaceAll] never returns when the first match of the pattern is
    empty: every [exec] finds that match again, whatever the fuel. *)
Theorem replaceAll_empty_match_never_returns (str replacement : jsstring)
    (regex : RegExp) (j : nat)
    (Hg : hasFlag flag_g regex = true)
    (Hempty : fst (RegExp_exec regex str) = Some (j, O)) :
  forall fuel, replaceAll fuel str regex replacement = OutOfFuel.
Proof.
  intro fuel.
  destruct (RegExp_exec_found regex str j O Hg Hempty) as (Hm & Hj & Hsnd).
  unfold replaceAll. rewrite Hg. cbn [negb].
  destruct (RegExp_exec regex str) as [m regex'] eqn:E.
  cbn [fst snd] in Hempty, Hsnd. subst m regex'.
  rewrite Nat.add_0_r.
  apply replaceAll_loop_empty_diverges; [exact Hg | exact Hm | lia].
Qed.

Lemma replaceAll_empty_match_witness :
  replaceAll 1000 (js "{}") lineStartRegex (js "    ") = OutOfFuel.
Proof.
  exact (replaceAll_empty_match_never_returns (js "{}") (js "    ")
           lineStartRegex O eq_refl eq_refl 1000).
Defined.

Lemma replaceAll_loop_returns (str replacement : jsstring) :
  forall fuel regex m result offset,
    hasFlag flag_g regex = true ->
    (forall i, matchAt regex str i <> Some O) ->
    (m <> None -> (S (length str) - lastIndex regex < fuel)%nat) ->
    exists text,
      replaceAll_loop fuel str regex replacement m result offset
      = Returned text.
Proof.
  induction fuel as [|fuel IH]; intros regex m result offset Hg Hne Hfuel.
  - destruct m as [[index len]|]; [|eexists; reflexivity].
    exfalso. assert (S (length str) - lastIndex regex < 0)%nat
      by (apply Hfuel; discriminate). lia.
  - destruct m as [[index len]|]; [|eexists; reflexivity].
    cbn [replaceAll_loop].
    destruct (RegExp_exec regex str) as [m' regex'] eqn:E.
    assert (Hlt : (S (length str) - lastIndex regex < S fuel)%nat)
      by (apply Hfuel; discriminate).
    destruct m' as [[j l]|].
    + destruct (RegExp_exec_found regex str j l Hg) as (Hm & Hj & Hsnd);
        [rewrite E; reflexivity|].
      rewrite E in Hsnd. cbn [snd] in Hsnd. subst regex'.
      apply IH; [exact Hg | exact Hne|].
      intros _. cbn [lastIndex set_lastIndex].
      assert (l <> O) by (intros ->; exact (Hne j Hm)).
      lia.
    + pose proof (RegExp_exec_none regex str Hg) as Hsnd.
      rewrite E in Hsnd. cbn [fst snd] in Hsnd.
      rewrite (Hsnd eq_refl).
      apply IH; [exact Hg | exact Hne|].
      intro H; exfalso; apply H; reflexivity.
Qed.

(** X7. [replaceAll] returns when no match of the pattern in the string is
    empty: fuel for one iteration more than the string has code units is
    enough, whatever [lastIndex] the regular expression starts with. *)
Theorem replaceAll_returns_without_empty_match (str replacement : jsstring)
    (regex : RegExp) (fuel : nat)
    (Hg : hasFlag flag_g regex = true)
    (Hnonempty : forall i, matchAt regex str i <> Some O)
    (Hfuel : (length str < fuel)%nat) :
  exists text, replaceAll fuel str regex replacement = Returned text.
Proof.
  unfold replaceAll. rewrite Hg. cbn [negb].
  destruct (RegExp_exec regex str) as [m regex'] eqn:E.
  destruct m as [[j l]|].
  - destruct (RegExp_exec_found regex str j l Hg) as (Hm & Hj & Hsnd);
      [rewrite E; reflexivity|].
    rewrite E in Hsnd. cbn [snd] in Hsnd. subst regex'.
    apply replaceAll_loop_returns; [exact Hg | exact Hnonempty|].
    intros _. cbn [lastIndex set_lastIndex].
    assert (l <> O) by (intros ->; exact (Hnonempty j Hm)).
    lia.
  - eexists. destruct fuel; reflexivity.
Qed.

Lemma literalRegex_nonempty (pat : jsstring) (fl : string) (str : jsstring) :
  pat <> [] -> forall i, matchAt (literalRegex pat fl) str i <> Some O.
Proof.
  intros Hpat i. cbn [matchAt literalRegex].
  destruct (jsstring_eqb _ pat); [|discriminate].
  destruct pat; [congruence | discriminate].
Qed.

Lemma replaceAll_returns_witness :
  exists text,
    replaceAll 4 (js "abc") (literalRegex (js "b") "g") (js "X")
    = Returned text.
Proof.
  apply replaceAll_returns_without_empty_match.
  - reflexivity.
  - apply literalRegex_nonempty. discriminate.
  - cbn. lia.
Defined.

(** X8. [replaceAll] throws exactly when the regular expression lacks the
    [g] flag, before looking at the string; the message names the regular
    expression. *)
Theorem replaceAll_throws_iff_not_global (fuel : nat) (str replacement : jsstring)
    (regex : RegExp) :
  (hasFlag flag_g regex = false ->
   replaceAll fuel str regex replacement
   = Threw (js "Expected a 'g' flag for regex " ++ RegExp_toString regex))
  /\ (hasFlag flag_g regex = true ->
      forall e, replaceAll fuel str regex replacement <> Threw e).
Proof.
  split; intro H; unfold replaceAll; rewrite H; cbn [negb].
  - reflexivity.
  - intro e. destruct (RegExp_exec regex str) as [m regex'].
    apply replaceAll_loop_not_Threw.
Qed.

Lemma replaceAll_throws_witness :
  replaceAll 10 (js "abc") (literalRegex (js "b") "i") (js "X")
  = Threw (js "Expected a 'g' flag for regex /b/i").
Proof.
  exact (proj1 (replaceAll_throws_iff_not_global 10 (js "abc") (js "X")
                  (literalRegex (js "b") "i")) eq_refl).
Defined.

(** X9. When the pattern has no match in the string, [replaceAll] returns
    the string without its final code unit (the empty string stays empty);
    so it returns the string itself only when the string is empty. *)
Theorem replaceAll_without_match_drops_last (fuel : nat)
    (str replacement : jsstring) (regex : RegExp)
    (Hg : hasFlag flag_g regex = true)
    (Hnone : fst (RegExp_exec regex str) = None) :
  replaceAll fuel str regex replacement = Returned (removelast str)
  /\ (replaceAll fuel str regex replacement = Returned str <-> str = []).
Proof.
  assert (Hr : firstn (length str - 1) str = removelast str).
  { clear. induction str as [|c s IH]; [reflexivity|].
    destruct s as [|d s]; [reflexivity|].
    cbn [length removelast] in *. rewrite <- IH.
    replace (S (S (length s)) - 1)%nat with (S (S (length s) - 1)) by lia.
    reflexivity. }
  rewrite (replaceAll_no_match fuel str regex replacement Hg Hnone), Hr.
  split; [reflexivity|]. split.
  - intro H. inversion H as [H1]. destruct str as [|c s]; [reflexivity|].
    apply (f_equal (@length N)) in H1.
    assert (Hl : length (removelast (c :: s)) = length s).
    { clear. revert c. induction s as [|d s IH]; intro c; [reflexivity|].
      cbn [removelast length] in *. rewrite IH. reflexivity. }
    rewrite Hl in H1. cbn in H1. lia.
  - intros ->. reflexivity.
Qed.

Lemma replaceAll_without_match_witness :
  replaceAll 10 (js "key") (literalRegex (js "x") "g") (js "y")
  = Returned (js "ke").
Proof.
  exact (proj1 (replaceAll_without_match_drops_last 10 (js "key") (js "y")
                  (literalRegex (js "x") "g") eq_refl eq_refl)).
Defined.

(** X10. [formatBindings] returns only for the empty list of items, and
    then gives the start comment with the file name, and the end comment;
    with at least one item it never returns, whatever the fuel, because the
    second call of [replaceAll] meets an empty match. *)
Theorem formatBindings_returns_only_without_items
    (JSON_stringify_pick : BindingItem -> jsstring)
    (fuel : nat) (file : Uri) (items : list BindingItem) :
  match items with
  | [] =>
      formatBindings JSON_stringify_pick fuel file items
      = Returned
          (AUTOMATED_COMMENT_START_PREFIX ++ js "    // `" ++ file ++ js "`"
           ++ AUTOMATED_COMMENT_START_SUFFIX ++ newline
           ++ AUTOMATED_COMMENT_END)
  | _ :: _ => formatBindings JSON_stringify_pick fuel file items = OutOfFuel
  end.
Proof.
  destruct items as [|item rest].
  - reflexivity.
  - apply formatBindings_nonempty_diverges.
Qed.

(** ** [insertKeybindingsIntoConfig] and [importBindings] *)

Lemma formatBindings_nil_text (JSON_stringify_pick : BindingItem -> jsstring)
    (fuel : nat) (file : Uri) :
  formatBindings JSON_stringify_pick fuel file []
  = Returned (emptyBindingsText file).
Proof. unfold emptyBindingsText. reflexivity. Qed.

Section InsertionEdges.

Variable searchMatches : TextDocument -> Position -> jsstring -> list Range.
Variable JSON_stringify_pick : BindingItem -> jsstring.

(** X11. When [insertKeybindingsIntoConfig] edits the document, there was
    nothing to format (a list with an item never gets that far), the opening
    bracket was found, and either both markers were found and the one edit
    replaces a range by the generated text, or neither was found and the one
    edit inserts a line break and the generated text at the end of the
    bracket; an information message follows, and no error is reported. *)
Theorem insertion_edits_once_and_only_with_paired_markers
    (fuel : nat) (file : Uri) (config : list BindingItem)
    (activeTextEditor : option TextDocument)
    (Hedit : existsb isEdit
               (effects (insertKeybindingsIntoConfig searchMatches
                           JSON_stringify_pick fuel file config
                           activeTextEditor)) = true) :
  let r := insertKeybindingsIntoConfig searchMatches JSON_stringify_pick
             fuel file config activeTextEditor in
  config = []
  /\ completion r = Returned tt
  /\ existsb isErrorMessage (effects r) = false
  /\ exists document bracket,
       activeTextEditor = Some document
       /\ findText searchMatches document (js "[") = Some bracket
       /\ ((findText searchMatches document (js "AUTOMATED BINDINGS START")
            <> None
            /\ findText searchMatches document (js "AUTOMATED BINDINGS END")
               <> None
            /\ exists range,
                 effects r
                 = [openKeybindingsFile;
                    edit_replace range (emptyBindingsText file);
                    showInformationMessage updatedMessage])
           \/ (findText searchMatches document (js "AUTOMATED BINDINGS START")
               = None
               /\ findText searchMatches document (js "AUTOMATED BINDINGS END")
                  = None
               /\ effects r
                  = [openKeybindingsFile;
                     edit_insert (r_end bracket)
                       (newline ++ emptyBindingsText file);
                     showInformationMessage insertedMessage])).
Proof.
  cbv zeta. revert Hedit.
  unfold insertKeybindingsIntoConfig, insertKeybindingsIntoConfig_resumed.
  destruct activeTextEditor as [document|]; [|discriminate].
  destruct (findText searchMatches document (js "[")) as [bracket|] eqn:Eb;
    [|discriminate].
  destruct config as [|item rest].
  2:{ rewrite formatBindings_nonempty_diverges. discriminate. }
  rewrite formatBindings_nil_text.
  destruct (findText searchMatches document (js "AUTOMATED BINDINGS START"))
    as [oldStart|] eqn:Es;
    destruct (findText searchMatches document (js "AUTOMATED BINDINGS END"))
      as [oldEnd|] eqn:Ee; try discriminate.
  - destruct (lineAt document (line (r_start oldStart) - 1)) as [before| e |];
      try discriminate.
    intros _. cbn [effects completion].
    split; [reflexivity|]. split; [reflexivity|]. split; [reflexivity|].
    exists document, bracket. split; [reflexivity|]. split; [exact Eb|].
    left. split; [rewrite Es; discriminate|].
    split; [rewrite Ee; discriminate|].
    eexists. reflexivity.
  - intros _. cbn [effects completion].
    split; [reflexivity|]. split; [reflexivity|]. split; [reflexivity|].
    exists document, bracket. split; [reflexivity|]. split; [exact Eb|].
    right. split; [exact Es|]. split; [exact Ee | reflexivity].
Qed.

(** X12. Without an active editor, or without an opening bracket in its
    document, nothing is edited and the call returns; the bracket error is
    reported exactly when there is an editor. *)
Theorem insertion_without_bracket_edits_nothing
    (fuel : nat) (file : Uri) (config : list BindingItem)
    (activeTextEditor : option TextDocument)
    (Hnone : forall document,
               activeTextEditor = Some document ->
               findText searchMatches document (js "[") = None) :
  let r := insertKeybindingsIntoConfig searchMatches JSON_stringify_pick
             fuel file config activeTextEditor in
  existsb isEdit (effects r) = false
  /\ completion r = Returned tt
  /\ effects r
     = openKeybindingsFile
       :: match activeTextEditor with
          | Some _ => [showErrorMessage bracketMessage]
          | None => []
          end.
Proof.
  cbv zeta.
  unfold insertKeybindingsIntoConfig, insertKeybindingsIntoConfig_resumed.
  destruct activeTextEditor as [document|]; [|repeat split].
  rewrite (Hnone document eq_refl). repeat split.
Qed.

(** X13. With both markers present and the start marker on the first line of
    the document (or on a line after its end), the line before it does not
    exist, and the call makes no edit and shows no message: with nothing to
    insert it throws when it asks for that line, after [formatBindings]; with
    an item to insert it does not get that far, [formatBindings] not
    returning. *)
Theorem insertion_stops_when_no_line_before_start_marker
    (fuel : nat) (file : Uri) (config : list BindingItem)
    (document : TextDocument)
    (bracket oldStart oldEnd : Range)
    (Hbracket : findText searchMatches document (js "[") = Some bracket)
    (Hstart : findText searchMatches document (js "AUTOMATED BINDINGS START")
              = Some oldStart)
    (Hend : findText searchMatches document (js "AUTOMATED BINDINGS END")
            = Some oldEnd)
    (Hline : line (r_start oldStart) <= 0
             \/ Z.of_nat (length document) < line (r_start oldStart)) :
  insertKeybindingsIntoConfig searchMatches JSON_stringify_pick fuel file
    config (Some document)
  = {| effects := [openKeybindingsFile];
       completion :=
         match config with
         | [] => Threw (js "Illegal value for `line`")
         | _ :: _ => OutOfFuel
         end |}.
Proof.
  unfold insertKeybindingsIntoConfig, insertKeybindingsIntoConfig_resumed.
  rewrite Hbracket.
  destruct config as [|item rest].
  2:{ rewrite formatBindings_nonempty_diverges. reflexivity. }
  rewrite formatBindings_nil_text.
  cbv iota beta. rewrite Hstart, Hend.
  assert (Hthrow : lineAt document (line (r_start oldStart) - 1)
                   = Threw (js "Illegal value for `line`")).
  { unfold lineAt.
    destruct (line (r_start oldStart) - 1 <? 0) eqn:E; [reflexivity|].
    apply Z.ltb_ge in E.
    destruct (nth_error document (Z.to_nat (line (r_start oldStart) - 1)))
      eqn:En; [|reflexivity].
    exfalso. assert (Hsome : nth_error document
                               (Z.to_nat (line (r_start oldStart) - 1)) <> None)
      by (rewrite En; discriminate).
    apply nth_error_Some in Hsome. lia. }
  rewrite Hthrow. reflexivity.
Qed.

End InsertionEdges.

Lemma insertion_edits_witness :
  effects (insertKeybindingsIntoConfig searchLiteral item_key 0
             (js "file:///preset.toml") [] (Some bracketDocument))
  = [openKeybindingsFile;
     edit_insert {| line := 0; character := 1 |}
       (newline ++ emptyBindingsText (js "file:///preset.toml"));
     showInformationMessage insertedMessage].
Proof.
  pose proof (insertion_edits_once_and_only_with_paired_markers searchLiteral
                item_key 0 (js "file:///preset.toml") [] (Some bracketDocument)
                eq_refl) as H.
  cbv zeta in H. destruct H as (_ & _ & _ & document & bracket & Hd & Hb & H).
  inversion Hd. subst document.
  assert (Hbr : bracket
                = {| r_start := {| line := 0; character := 0 |};
                     r_end := {| line := 0; character := 1 |} |}).
  { vm_compute in Hb. inversion Hb. reflexivity. }
  subst bracket.
  destruct H as [(Hs & _) | (_ & _ & H)]; [|exact H].
  exfalso. apply Hs. vm_compute. reflexivity.
Defined.

Lemma insertion_without_bracket_witness :
  effects (insertKeybindingsIntoConfig searchLiteral item_key 0
             (js "file:///preset.toml") [someItem] (Some noBracketDocument))
  = [openKeybindingsFile; showErrorMessage bracketMessage].
Proof.
  refine (proj2 (proj2 (insertion_without_bracket_edits_nothing searchLiteral
                          item_key 0 (js "file:///preset.toml") [someItem]
                          (Some noBracketDocument) _))).
  intros document H. inversion H. subst document. vm_compute. reflexivity.
Defined.

Lemma insertion_stops_witness :
  completion (insertKeybindingsIntoConfig searchLiteral item_key 0
                (js "file:///preset.toml") [] (Some markersOnFirstLine))
  = Threw (js "Illegal value for `line`")
  /\ insertKeybindingsIntoConfig searchLiteral item_key 0
       (js "file:///preset.toml") [someItem] (Some markersOnFirstLine)
     = {| effects := [openKeybindingsFile]; completion := OutOfFuel |}.
Proof.
  assert (H : forall config,
             insertKeybindingsIntoConfig searchLiteral item_key 0
               (js "file:///preset.toml") config (Some markersOnFirstLine)
             = {| effects := [openKeybindingsFile];
                  completion :=
                    match config with
                    | [] => Threw (js "Illegal value for `line`")
                    | _ :: _ => OutOfFuel
                    end |}).
  { intro config.
    apply (insertion_stops_when_no_line_before_start_marker searchLiteral
             item_key 0 (js "file:///preset.toml") config
             markersOnFirstLine
             {| r_start := {| line := 0; character := 0 |};
                r_end := {| line := 0; character := 1 |} |}
             {| r_start := {| line := 0; character := 5 |};
                r_end := {| line := 0; character := 29 |} |}
             {| r_start := {| line := 1; character := 5 |};
                r_end := {| line := 1; character := 27 |} |});
      try (vm_compute; reflexivity).
    left. cbn. lia. }
  split; [rewrite (H []) | rewrite (H [someItem])]; reflexivity.
Defined.

Section ImportEdges.

Variable searchMatches : TextDocument -> Position -> jsstring -> list Range.
Variable processBindings : BindingSpec -> list BindingItem.
Variable JSON_stringify_pick : BindingItem -> jsstring.

(** X14. When the open dialog is cancelled, or gives no file or more than
    one, [importBindings] asks nothing of the host: the parser's answer and
    the editor do not matter. *)
Theorem import_without_one_file_does_nothing
    (fuel : nat) (picked : option (list Uri))
    (parseBindingFile : Uri -> ParseResult)
    (activeTextEditor : option TextDocument)
    (Hpick : forall files, picked = Some files -> length files <> 1%nat) :
  queryBindingFile picked = None
  /\ importBindings searchMatches processBindings JSON_stringify_pick fuel
       picked parseBindingFile activeTextEditor
     = {| i_effects := []; i_completion := Returned tt; i_insertion := None |}.
Proof.
  assert (H : queryBindingFile picked = None).
  { destruct picked as [[|file [|file' files]]|]; try reflexivity.
    exfalso. apply (Hpick [file] eq_refl). reflexivity. }
  split; [exact H|]. unfold importBindings. rewrite H. reflexivity.
Qed.

(** X15. After a successful parse that defines valid modes, the modes are
    written to the configuration whatever becomes of the insertion (no
    editor, no bracket, altered markers, or an insertion that never ends),
    right after the keybindings file is opened; without such a definition
    the configuration is not touched. [importBindings] itself returns. *)
Theorem import_updates_valid_modes_whatever_the_insertion
    (fuel : nat) (file : Uri) (parseBindingFile : Uri -> ParseResult)
    (activeTextEditor : option TextDocument) (data : BindingSpec)
    (Hparse : parseBindingFile file = ParseSuccess data) :
  let r := importBindings searchMatches processBindings JSON_stringify_pick
             fuel (Some [file]) parseBindingFile activeTextEditor in
  i_completion r = Returned tt
  /\ hd_error (i_effects r) = Some openKeybindingsFile
  /\ (forall modes,
        define_validModes data = Some modes ->
        nth_error (i_effects r) 1
        = Some (config_update (js "modalkeys") (js "validModes") modes))
  /\ (existsb isConfigUpdate (i_effects r) = true
      <-> define_validModes data <> None).
Proof.
  cbv zeta. unfold importBindings. cbn [queryBindingFile]. rewrite Hparse.
  cbn [i_completion i_effects hd_error].
  split; [reflexivity|]. split; [reflexivity|]. split.
  - intros modes ->. reflexivity.
  - assert (Hrest : existsb isConfigUpdate
                      (effects (insertKeybindingsIntoConfig_resumed
                                  searchMatches JSON_stringify_pick fuel file
                                  (processBindings data) activeTextEditor))
                    = false).
    { unfold insertKeybindingsIntoConfig_resumed.
      destruct activeTextEditor as [document|]; [|reflexivity].
      destruct (findText searchMatches document (js "[")); [|reflexivity].
      destruct (formatBindings _ _ _ _); try reflexivity.
      destruct (findText searchMatches document (js "AUTOMATED BINDINGS START")),
               (findText searchMatches document (js "AUTOMATED BINDINGS END"));
        try reflexivity.
      destruct (lineAt document _); reflexivity. }
    destruct (define_validModes data) as [modes|].
    + cbn. split; [discriminate | reflexivity].
    + cbn [app existsb isConfigUpdate openKeybindingsFile orb].
      rewrite Hrest. split; [discriminate | congruence].
Qed.

End ImportEdges.

Lemma import_without_one_file_witness :
  i_effects
    (importBindings searchLiteral bind_ item_key 0
       (Some [js "file:///a.toml"; js "file:///b.toml"])
       (fun _ => ParseFailure [issueAt "0"]) None)
  = [].
Proof.
  refine (f_equal i_effects (proj2
    (import_without_one_file_does_nothing searchLiteral bind_ item_key 0
       (Some [js "file:///a.toml"; js "file:///b.toml"])
       (fun _ => ParseFailure [issueAt "0"]) None _))).
  intros files H. inversion H. cbn. lia.
Defined.

Lemma import_updates_valid_modes_witness :
  nth_error
    (i_effects
       (importBindings searchLiteral bind_ item_key 0
          (Some [js "file:///preset.toml"])
          (fun _ => ParseSuccess
                      {| define_validModes := Some [js "normal"; js "insert"];
                         bind_ := [someItem] |})
          (Some noBracketDocument))) 1
  = Some (config_update (js "modalkeys") (js "validModes")
            [js "normal"; js "insert"]).
Proof.
  exact (proj1 (proj2 (proj2
    (import_updates_valid_modes_whatever_the_insertion searchLiteral bind_
       item_key 0 (js "file:///preset.toml")
       (fun _ => ParseSuccess
                   {| define_validModes := Some [js "normal"; js "insert"];
                      bind_ := [someItem] |})
       (Some noBracketDocument) _ eq_refl))) _ eq_refl).
Defined.

(** ** The helpers of the tests *)

Section EnterModalKeys.

Variable Number_toString : Z -> jsstring.
Variable toUpperCase : jsstring -> jsstring.
Variable toLowerCase : jsstring -> jsstring.
Variable MODAL_KEY_MAP : jsstring -> option jsstring.
Variable statusBar_getItem : list Action -> jsstring -> bool.

Let step := enterModalKeys_step Number_toString toUpperCase toLowerCase
              MODAL_KEY_MAP statusBar_getItem.
Let loop := enterModalKeys_loop Number_toString toUpperCase toLowerCase
              MODAL_KEY_MAP statusBar_getItem.

Lemma waitUntil_inl (st st' : EnterState) (label : jsstring) :
  waitUntil statusBar_getItem st label = inl st' ->
  st' = {| e_count := e_count st; e_keySeqString := e_keySeqString st;
           e_checkCleared := e_checkCleared st;
           e_log := e_log st ++ [waited label] |}.
Proof.
  unfold waitUntil. destruct (statusBar_getItem (e_log st) label);
    [|discriminate].
  intro H. inversion H. reflexivity.
Qed.

Lemma waitUntil_inr (st : EnterState) (label : jsstring) (e : Thrown) :
  waitUntil statusBar_getItem st label = inr e -> e = TimedOut label.
Proof.
  unfold waitUntil. destruct (statusBar_getItem (e_log st) label);
    [discriminate|].
  intro H. inversion H. reflexivity.
Qed.

(** The check of the keys, which opens an iteration: three ways out. *)
Lemma enterModalKeys_step_check (st : EnterState) (k : ModalKey) :
  (strings (modalKeyToStringArray k) = None /\ step st k = inr NotAFunction)
  \/ (notLowerCase toLowerCase k /\ step st k = inr KeysNotLowerCase)
  \/ (lowerCase toLowerCase k
      /\ ((exists label, step st k = inr (TimedOut label))
          \/ exists st',
               step st k = inl st'
               /\ e_count st'
                  = match modalKeyCount k with
                    | None => e_count st
                    | Some n => toDouble (toDouble (e_count st * 10) + n)
                    end
               /\ e_checkCleared st' = modalKeyUpdateStatus k
               /\ exists keyCodes,
                    e_log st'
                    = e_log st ++ keys_sent keyCodes
                        :: (if modalKeyUpdateStatus k
                            then [waited (js "Keys Typed: "
                                          ++ countPrefix Number_toString
                                               (e_count st')
                                          ++ e_keySeqString st')]
                            else []))).
Proof.
  unfold step, enterModalKeys_step, lowerCase, notLowerCase.
  destruct (strings (modalKeyToStringArray k)) as [keys|];
    [|left; split; reflexivity].
  right.
  destruct (list_eq_dec (list_eq_dec N.eq_dec) (map toLowerCase keys) keys)
    as [E|E]; cbn [negb].
  2:{ left. split; [exists keys; split; [reflexivity | exact E] | reflexivity]. }
  right. split; [exists keys; split; [reflexivity | exact E]|].
  cbv zeta.
  destruct (modalKeyUpdateStatus k).
  - match goal with
    | |- context [waitUntil _ ?s ?l] =>
        destruct (waitUntil statusBar_getItem s l) as [st'|e] eqn:Ew
    end.
    + right. exists st'. split; [reflexivity|].
      apply waitUntil_inl in Ew. subst st'.
      cbn [e_count e_keySeqString e_checkCleared e_log].
      split; [reflexivity|]. split; [reflexivity|].
      eexists. rewrite <- app_assoc. reflexivity.
    + left. apply waitUntil_inr in Ew. subst e. eexists. reflexivity.
  - right. eexists. split; [reflexivity|].
    cbn [e_count e_keySeqString e_checkCleared e_log].
    split; [reflexivity|]. split; [reflexivity|].
    eexists. reflexivity.
Qed.

Lemma lowerCase_not_notLowerCase (k : ModalKey) :
  lowerCase toLowerCase k -> notLowerCase toLowerCase k -> False.
Proof.
  intros (keys & Hk & He) (keys' & Hk' & Hne).
  rewrite Hk in Hk'. inversion Hk'. subst keys'. contradiction.
Qed.

Lemma lowerCase_strings (k : ModalKey) :
  lowerCase toLowerCase k -> strings (modalKeyToStringArray k) <> None.
Proof. intros (keys & Hk & _). rewrite Hk. discriminate. Qed.

Lemma enterModalKeys_step_inl (st st' : EnterState) (k : ModalKey) :
  step st k = inl st' -> lowerCase toLowerCase k.
Proof.
  intro H.
  destruct (enterModalKeys_step_check st k)
    as [(_ & E) | [(_ & E) | (Hl & _)]]; [congruence | congruence | exact Hl].
Qed.

Lemma enterModalKeys_step_KeysNotLowerCase (st : EnterState) (k : ModalKey) :
  step st k = inr KeysNotLowerCase <-> notLowerCase toLowerCase k.
Proof.
  destruct (enterModalKeys_step_check st k)
    as [(Hs & E) | [(Hn & E) | (Hl & [(label & E) | (st' & E & _)])]];
    rewrite E; split; intro H; try discriminate; try reflexivity;
    try exact Hn.
  - destruct H as (keys & Hk & _). congruence.
  - exfalso. exact (lowerCase_not_notLowerCase k Hl H).
  - exfalso. exact (lowerCase_not_notLowerCase k Hl H).
Qed.

Lemma enterModalKeys_step_registered (st : EnterState) (k : ModalKey) :
  registersAll statusBar_getItem -> lowerCase toLowerCase k ->
  exists st', step st k = inl st'.
Proof.
  intros Hreg (keys & Hk & He).
  unfold step, enterModalKeys_step. rewrite Hk.
  destruct (list_eq_dec (list_eq_dec N.eq_dec) (map toLowerCase keys) keys)
    as [_|E]; [|contradiction].
  cbn [negb]. cbv zeta. unfold waitUntil. rewrite Hreg.
  destruct (modalKeyUpdateStatus k); eexists; reflexivity.
Qed.

Lemma enterModalKeys_loop_inl (keySeq : list ModalKey) :
  forall st st', loop st keySeq = inl st' ->
                 Forall (lowerCase toLowerCase) keySeq.
Proof.
  induction keySeq as [|k rest IH]; intros st st' H; [constructor|].
  unfold loop in H. cbn [enterModalKeys_loop] in H.
  fold (step st k) in H.
  destruct (step st k) as [st1|e] eqn:E; [|discriminate].
  constructor; [exact (enterModalKeys_step_inl _ _ _ E)|].
  exact (IH _ _ H).
Qed.

Lemma enterModalKeys_loop_KeysNotLowerCase (keySeq : list ModalKey) :
  forall st, loop st keySeq = inr KeysNotLowerCase ->
             firstNotLowerCase toLowerCase keySeq.
Proof.
  induction keySeq as [|k rest IH]; intros st H; [discriminate|].
  unfold loop in H. cbn [enterModalKeys_loop] in H.
  fold (step st k) in H.
  destruct (step st k) as [st1|e] eqn:E.
  - destruct (IH _ H) as (before & k' & after & Hseq & Hb & Hk).
    exists (k :: before), k', after. subst rest.
    split; [reflexivity|]. split; [|exact Hk].
    constructor; [exact (enterModalKeys_step_inl _ _ _ E) | exact Hb].
  - inversion H. subst e.
    exists [], k, rest. split; [reflexivity|]. split; [constructor|].
    apply (enterModalKeys_step_KeysNotLowerCase st k). exact E.
Qed.

Lemma enterModalKeys_loop_first (before : list ModalKey) :
  registersAll statusBar_getItem ->
  forall st k after,
    Forall (lowerCase toLowerCase) before ->
    notLowerCase toLowerCase k ->
    loop st (before ++ k :: after) = inr KeysNotLowerCase.
Proof.
  intro Hreg.
  induction before as [|b before IH]; intros st k after Hb Hk.
  - unfold loop. cbn [app enterModalKeys_loop]. fold (step st k).
    rewrite (proj2 (enterModalKeys_step_KeysNotLowerCase st k) Hk).
    reflexivity.
  - inversion Hb as [|? ? Hb1 Hb2]; subst.
    destruct (enterModalKeys_step_registered st b Hreg Hb1) as [st1 E].
    unfold loop. cbn [app enterModalKeys_loop]. fold (step st b). rewrite E.
    exact (IH st1 k after Hb2 Hk).
Qed.

Lemma enterModalKeys_loop_registered (keySeq : list ModalKey) :
  registersAll statusBar_getItem ->
  forall st, Forall (lowerCase toLowerCase) keySeq ->
             exists st', loop st keySeq = inl st'.
Proof.
  intro Hreg.
  induction keySeq as [|k rest IH]; intros st H; [exists st; reflexivity|].
  inversion H as [|? ? Hk Hrest]; subst.
  destruct (enterModalKeys_step_registered st k Hreg Hk) as [st1 E].
  unfold loop. cbn [enterModalKeys_loop]. fold (step st k). rewrite E.
  exact (IH st1 Hrest).
Qed.

(** X16. [enterModalKeys] returns only if the keys of every entry are strings
    that lower-casing leaves as they are. It throws 'Keys must all be lower
    case' only if the first entry that is not made of such strings has a key
    that lower-casing changes (an entry whose specification has the empty
    string for its key makes [toLowerCase] throw instead, and a status text
    that does not come in time makes the wait throw). With a status bar that
    registers every text in time it throws that error exactly then, and
    returns exactly when every entry is made of lower-case strings. *)
Theorem enterModalKeys_throws_iff_not_lower_case (keySeq : list ModalKey) :
  let r := enterModalKeys Number_toString toUpperCase toLowerCase
             MODAL_KEY_MAP statusBar_getItem keySeq in
  (forall st, r = inl st -> Forall (lowerCase toLowerCase) keySeq)
  /\ (r = inr KeysNotLowerCase -> firstNotLowerCase toLowerCase keySeq)
  /\ (registersAll statusBar_getItem ->
      (firstNotLowerCase toLowerCase keySeq -> r = inr KeysNotLowerCase)
      /\ (Forall (lowerCase toLowerCase) keySeq -> exists st, r = inl st)).
Proof.
  cbv zeta. unfold enterModalKeys.
  set (st0 := {| e_count := 0; e_keySeqString := [];
                 e_checkCleared := true; e_log := [] |}).
  split; [|split].
  - intros st H.
    destruct (waitUntil statusBar_getItem st0 (js "No Keys Typed"))
      as [st1|e]; [|discriminate].
    fold (loop st1 keySeq) in H.
    destruct (loop st1 keySeq) as [st2|e] eqn:E; [|discriminate].
    exact (enterModalKeys_loop_inl _ _ _ E).
  - intro H.
    destruct (waitUntil statusBar_getItem st0 (js "No Keys Typed"))
      as [st1|e] eqn:E0.
    + fold (loop st1 keySeq) in H.
      destruct (loop st1 keySeq) as [st2|e] eqn:E.
      * destruct (e_checkCleared st2); [|discriminate].
        destruct (waitUntil statusBar_getItem st2 (js "No Keys Typed"))
          as [st3|e] eqn:E2; [discriminate|].
        apply waitUntil_inr in E2. congruence.
      * inversion H. subst e.
        exact (enterModalKeys_loop_KeysNotLowerCase _ _ E).
    + apply waitUntil_inr in E0. congruence.
  - intro Hreg. split.
    + intros (before & k & after & -> & Hb & Hk).
      unfold waitUntil at 1. rewrite Hreg.
      match goal with
      | |- context [enterModalKeys_loop _ _ _ _ _ ?s _] =>
          pose proof (enterModalKeys_loop_first before Hreg s k after Hb Hk)
            as E
      end.
      unfold loop in E. rewrite E. reflexivity.
    + intro Hall. unfold waitUntil at 1. rewrite Hreg.
      match goal with
      | |- context [enterModalKeys_loop _ _ _ _ _ ?s _] =>
          destruct (enterModalKeys_loop_registered keySeq Hreg s Hall)
            as [st2 E]
      end.
      unfold loop in E. rewrite E. unfold waitUntil. rewrite Hreg.
      destruct (e_checkCleared st2); eexists; reflexivity.
Qed.

Lemma last_cons {A : Type} (l : list A) :
  forall a d, last (a :: l) d = last l a.
Proof.
  induction l as [|b l IH]; intros a d; [reflexivity|].
  change (last (a :: b :: l) d) with (last (b :: l) d).
  rewrite (IH b d), (IH b a). reflexivity.
Qed.

Lemma count_filter_app (f : Action -> bool) (a b : list Action) :
  length (filter f (a ++ b)) = (length (filter f a) + length (filter f b))%nat.
Proof. rewrite filter_app, length_app. reflexivity. Qed.

Lemma enterModalKeys_loop_count (keySeq : list ModalKey) :
  forall st st',
    loop st keySeq = inl st' ->
    0 <= e_count st ->
    Forall (fun n => 0 <= n) (givenCounts keySeq) ->
    fold_left (fun c n => c * 10 + n) (givenCounts keySeq) (e_count st)
    <= MAX_SAFE_INTEGER ->
    e_count st'
    = fold_left (fun c n => c * 10 + n) (givenCounts keySeq) (e_count st)
    /\ e_checkCleared st'
       = last (map modalKeyUpdateStatus keySeq) (e_checkCleared st)
    /\ length (filter isSent (e_log st'))
       = (length (filter isSent (e_log st)) + length keySeq)%nat
    /\ length (filter isWaited (e_log st'))
       = (length (filter isWaited (e_log st))
          + length (filter modalKeyUpdateStatus keySeq))%nat.
Proof.
  induction keySeq as [|k rest IH]; intros st st' H Hc Hn Hle.
  - inversion H. subst st'. cbn. rewrite !Nat.add_0_r. repeat split.
  - unfold loop in H. cbn [enterModalKeys_loop] in H. fold (step st k) in H.
    destruct (enterModalKeys_step_check st k)
      as [(_ & E) | [(_ & E) | (_ & [(label & E) | (st1 & E & Hc1 & Hk1 & codes & Hl1)])]];
      rewrite E in H; try discriminate.
    fold (loop st1 rest) in H.
    unfold givenCounts in Hn, Hle |- *. cbn [flat_map] in Hn, Hle |- *.
    fold (givenCounts rest) in Hn, Hle |- *.
    assert (Hstep : 0 <= e_count st1
                    /\ fold_left (fun c n => c * 10 + n)
                         (match modalKeyCount k with
                          | Some n => [n]
                          | None => []
                          end ++ givenCounts rest) (e_count st)
                       = fold_left (fun c n => c * 10 + n) (givenCounts rest)
                           (e_count st1)).
    { rewrite Hc1. destruct (modalKeyCount k) as [n|]; cbn [app fold_left].
      - apply Forall_app in Hn. destruct Hn as [Hn1 Hn2].
        inversion Hn1 as [|? ? Hn0 _]; subst.
        cbn [app fold_left] in Hle.
        pose proof (count_fold_le (givenCounts rest) (e_count st * 10 + n)
                      ltac:(lia) Hn2) as Hmono.
        rewrite count_step_safe by lia. split; [lia | reflexivity].
      - split; [exact Hc | reflexivity]. }
    destruct Hstep as [Hc1' Hfold].
    assert (Hn' : Forall (fun n => 0 <= n) (givenCounts rest)).
    { apply Forall_app in Hn. exact (proj2 Hn). }
    rewrite Hfold in Hle |- *.
    destruct (IH st1 st' H Hc1' Hn' Hle) as (Hcount & Hcleared & Hsent & Hwaited).
    split; [exact Hcount|].
    split.
    { rewrite Hcleared, Hk1. cbn [map]. symmetry. apply last_cons. }
    rewrite Hsent, Hwaited, Hl1.
    change (e_log st ++ keys_sent codes
              :: (if modalKeyUpdateStatus k then [waited _] else []))
      with (e_log st ++ [keys_sent codes]
              ++ (if modalKeyUpdateStatus k
                  then [waited (js "Keys Typed: "
                                ++ countPrefix Number_toString (e_count st1)
                                ++ e_keySeqString st1)]
                  else [])).
    rewrite !count_filter_app. cbn [filter].
    destruct (modalKeyUpdateStatus k); cbn [filter isSent isWaited negb length];
      split; lia.
Qed.


End EnterModalKeys.

Lemma enterModalKeys_throws_witness :
  enterModalKeys decimal asciiToUpperCase asciiToLowerCase (fun _ => None)
    (fun _ _ => true)
    [Plain (OneKey (js "g")); Plain (KeyArray [js "ctrl"; js "X"]);
     Spec {| key := OneKey []; count := Some 5; updatesStatus := None |}]
  = inr KeysNotLowerCase.
Proof.
  apply (proj1 (proj2 (proj2
    (enterModalKeys_throws_iff_not_lower_case decimal asciiToUpperCase
       asciiToLowerCase (fun _ => None) (fun _ _ => true) _))
    (fun _ _ => eq_refl))).
  exists [Plain (OneKey (js "g"))], (Plain (KeyArray [js "ctrl"; js "X"])).
  eexists. split; [reflexivity|]. split.
  - constructor; [|constructor]. eexists. split; reflexivity.
  - eexists. split; [reflexivity|]. vm_compute. discriminate.
Defined.


(** ** Waiting for the cursor *)

Lemma XY_isEqual_eq (a b : XY) : XY_isEqual a b = true <-> a = b.
Proof.
  unfold XY_isEqual. destruct a as [ax ay], b as [bx by_]. cbn.
  rewrite andb_true_iff, !Z.eqb_eq. split.
  - intros [-> ->]. reflexivity.
  - intro H. inversion H. auto.
Qed.

Lemma lastShow_snoc (oldpos m : XY) (n : nat) (seen : list (Z * Z))
    (c : Z * Z) :
  lastShow oldpos m n seen -> coordChange c oldpos = m ->
  lastShow oldpos m (S n) (seen ++ [c]).
Proof.
  intros (before & shown & -> & Hl & Hf) Hc.
  exists before, (shown ++ [c]). split; [symmetry; apply app_assoc|].
  split; [rewrite length_app; cbn; lia|].
  apply Forall_app. split; [exact Hf | repeat constructor; exact Hc].
Qed.

Lemma unmoving_poll_remembers (oldpos : XY) (st : Unmoving)
    (seen : list (Z * Z)) (c : Z * Z) :
  remembers oldpos st seen ->
  remembers oldpos (fst (unmoving_poll oldpos st c)) (seen ++ [c]).
Proof.
  intros (H0 & Hlast & Hmore). unfold unmoving_poll. cbn [fst].
  destruct (XY_isEqual (lastMove st) (coordChange c oldpos)) eqn:E.
  - apply XY_isEqual_eq in E. unfold remembers. cbn [lastMove stepsUnchanged].
    replace (Z.to_nat (stepsUnchanged st + 1))
      with (S (Z.to_nat (stepsUnchanged st))) by lia.
    split; [lia|]. split.
    + apply lastShow_snoc; [exact Hlast | symmetry; exact E].
    + intro Hne. apply lastShow_snoc; [apply Hmore; exact Hne|].
      symmetry; exact E.
  - unfold remembers. cbn [lastMove stepsUnchanged].
    assert (H1 : lastShow oldpos (coordChange c oldpos) 1 (seen ++ [c])).
    { exists seen, [c]. repeat split. repeat constructor. }
    split; [lia|]. split; [|intros _; exact H1].
    exists (seen ++ [c]), []. split; [symmetry; apply app_nil_r|].
    split; [reflexivity | constructor].
Qed.

Lemma unmoving_wait_sound (oldpos : XY) (coordinates : list (Z * Z)) :
  forall st seen m,
    remembers oldpos st seen ->
    unmoving_wait oldpos st coordinates = Some m ->
    exists polled rest,
      coordinates = polled ++ rest
      /\ lastShow oldpos m 2 (seen ++ polled)
      /\ (m <> {| pos_x := 0; pos_y := 0 |} ->
          lastShow oldpos m 3 (seen ++ polled)).
Proof.
  induction coordinates as [|c later IH]; intros st seen m Hrem H;
    [discriminate|].
  cbn [unmoving_wait] in H.
  pose proof (unmoving_poll_remembers oldpos st seen c Hrem) as Hrem'.
  destruct (unmoving_poll oldpos st c) as [st' [move|]] eqn:E.
  - inversion H. subst move. clear H.
    exists [c], later. split; [reflexivity|].
    cbn [fst] in Hrem'. destruct Hrem' as (H0 & Hlast & Hmore).
    unfold unmoving_poll in E. cbv zeta in E. inversion E as [[Hst H2]].
    rewrite Hst in H2. symmetry in Hst.
    assert (Hm : (stepsUnchanged st' >? 1) = true /\ m = coordChange c oldpos).
    { destruct (stepsUnchanged st' >? 1); inversion H2. auto. }
    clear H2.
    destruct Hm as [Hgt Hm]. apply Z.gtb_lt in Hgt.
    assert (Hlm : lastMove st' = m).
    { rewrite Hst, Hm.
      destruct (XY_isEqual (lastMove st) (coordChange c oldpos)) eqn:Eq;
        [apply XY_isEqual_eq in Eq; exact Eq | reflexivity]. }
    rewrite Hlm in Hlast, Hmore.
    assert (Hshrink : forall n k, (k <= n)%nat ->
              lastShow oldpos m n (seen ++ [c]) ->
              lastShow oldpos m k (seen ++ [c])).
    { clear. intros n k Hk (before & shown & Hs & Hl & Hf).
      exists (before ++ firstn (n - k) shown), (skipn (n - k) shown).
      split; [rewrite <- app_assoc, firstn_skipn; exact Hs|].
      split; [rewrite length_skipn; lia|].
      apply Forall_forall. intros x Hx.
      apply (proj1 (Forall_forall _ _) Hf).
      rewrite <- (firstn_skipn (n - k) shown). apply in_or_app. right.
      exact Hx. }
    split.
    + apply (Hshrink (Z.to_nat (stepsUnchanged st'))); [lia | exact Hlast].
    + intro Hne.
      apply (Hshrink (S (Z.to_nat (stepsUnchanged st')))); [lia|].
      apply Hmore. exact Hne.
  - cbn [fst] in Hrem'.
    destruct (IH st' (seen ++ [c]) m Hrem' H) as (polled & rest & Hc & H2 & H3).
    exists (c :: polled), rest. split; [cbn; rewrite Hc; reflexivity|].
    rewrite <- app_assoc in H2, H3. split; assumption.
Qed.

Lemma remembers_start (oldpos : XY) : remembers oldpos unmovingStart [].
Proof.
  unfold remembers, unmovingStart. cbn [lastMove stepsUnchanged].
  split; [lia|]. split.
  - exists [], []. repeat split. constructor.
  - intro H. exfalso. apply H. reflexivity.
Qed.

(** X18. When [waitUntilCursorUnmoving] returns a move, the last two answers
    of the editor it has polled both show that move, and the last three do
    unless the move is no move at all: it never returns on its first
    poll. *)
Theorem waitUntilCursorUnmoving_returns_a_settled_move
    (oldpos m : XY) (coordinates : list (Z * Z))
    (Hreturned : waitUntilCursorUnmoving (Some oldpos) coordinates = Some m) :
  exists polled rest,
    coordinates = polled ++ rest
    /\ (2 <= length polled)%nat
    /\ Forall (fun c => coordChange c oldpos = m)
         (skipn (length polled - 2) polled)
    /\ (m <> {| pos_x := 0; pos_y := 0 |} ->
        (3 <= length polled)%nat
        /\ Forall (fun c => coordChange c oldpos = m)
             (skipn (length polled - 3) polled)).
Proof.
  cbn [waitUntilCursorUnmoving] in Hreturned.
  destruct (unmoving_wait_sound oldpos coordinates unmovingStart [] m
              (remembers_start oldpos) Hreturned)
    as (polled & rest & Hc & H2 & H3).
  cbn [app] in H2, H3.
  assert (Hlast : forall n, lastShow oldpos m n polled ->
            (n <= length polled)%nat
            /\ Forall (fun c => coordChange c oldpos = m)
                 (skipn (length polled - n) polled)).
  { clear. intros n (before & shown & -> & Hl & Hf).
    rewrite length_app. split; [lia|].
    replace (length before + length shown - n)%nat with (length before) by lia.
    rewrite skipn_app, skipn_all, Nat.sub_diag. exact Hf. }
  exists polled, rest. split; [exact Hc|].
  destruct (Hlast 2%nat H2) as [Hl2 Hf2].
  split; [exact Hl2|]. split; [exact Hf2|].
  intro Hne. apply (Hlast 3%nat (H3 Hne)).
Qed.

Lemma waitUntilCursorUnmoving_witness :
  waitUntilCursorUnmoving (Some {| pos_x := 1; pos_y := 1 |})
    [(1, 1); (1, 4); (1, 5); (1, 5); (1, 5); (9, 9)]
  = Some {| pos_x := 4; pos_y := 0 |}
  /\ exists polled rest,
       [(1, 1); (1, 4); (1, 5); (1, 5); (1, 5); (9, 9)] = polled ++ rest
       /\ (2 <= length polled)%nat.
Proof.
  split; [reflexivity|].
  destruct (waitUntilCursorUnmoving_returns_a_settled_move
              {| pos_x := 1; pos_y := 1 |} {| pos_x := 4; pos_y := 0 |}
              [(1, 1); (1, 4); (1, 5); (1, 5); (1, 5); (9, 9)] eq_refl)
    as (polled & rest & Hc & Hl & _).
  exists polled, rest. split; assumption.
Defined.

Lemma unmoving_wait_three (oldpos : XY) (a b c : Z * Z) (later : list (Z * Z))
    (st : Unmoving) :
  0 <= stepsUnchanged st ->
  coordChange a oldpos = coordChange b oldpos ->
  coordChange b oldpos = coordChange c oldpos ->
  unmoving_wait oldpos st (a :: b :: c :: later) <> None.
Proof.
  intros H0 Hab Hbc. cbn [unmoving_wait]. unfold unmoving_poll.
  cbn [lastMove stepsUnchanged].
  set (m := coordChange a oldpos) in *.
  rewrite <- Hbc, <- Hab.
  assert (Hmm : XY_isEqual m m = true) by (apply XY_isEqual_eq; reflexivity).
  destruct (XY_isEqual (lastMove st) m) eqn:E; cbn [lastMove stepsUnchanged].
  - destruct (stepsUnchanged st + 1 >? 1) eqn:G1; [discriminate|].
    rewrite E. cbn [lastMove stepsUnchanged].
    destruct (stepsUnchanged st + 1 + 1 >? 1) eqn:G2; [discriminate|].
    exfalso. rewrite Z.gtb_ltb in G2. apply Z.ltb_ge in G2. lia.
  - cbn. rewrite Hmm. cbn. rewrite Hmm. cbn. discriminate.
Qed.

Lemma unmoving_wait_prefix (oldpos : XY) (l1 l2 : list (Z * Z)) (m : XY) :
  forall st,
    unmoving_wait oldpos st l1 = Some m ->
    unmoving_wait oldpos st (l1 ++ l2) = Some m.
Proof.
  induction l1 as [|c l1 IH]; intros st H; [discriminate|].
  cbn [app unmoving_wait] in *.
  destruct (unmoving_poll oldpos st c) as [st' [move|]]; [exact H|].
  apply IH. exact H.
Qed.

Lemma unmoving_wait_app (oldpos : XY) (l1 l2 : list (Z * Z)) :
  forall st,
    unmoving_wait oldpos st l1 = None ->
    unmoving_wait oldpos st (l1 ++ l2)
    = unmoving_wait oldpos (unmoving_after oldpos st l1) l2.
Proof.
  induction l1 as [|c l1 IH]; intros st H; [reflexivity|].
  cbn [app unmoving_wait unmoving_after fold_left] in *.
  destruct (unmoving_poll oldpos st c) as [st' [move|]]; [discriminate|].
  apply IH. exact H.
Qed.

Lemma unmoving_after_steps (oldpos : XY) (l : list (Z * Z)) :
  forall st, 0 <= stepsUnchanged st ->
             0 <= stepsUnchanged (unmoving_after oldpos st l).
Proof.
  induction l as [|c l IH]; intros st H; [exact H|].
  cbn [unmoving_after fold_left]. apply IH. unfold unmoving_poll. cbn [fst].
  destruct (XY_isEqual _ _); cbn; lia.
Qed.

(** X19. [waitUntilCursorUnmoving] does not time out once three successive
    answers of the editor show the same move: it returns at the third of
    them at the latest, and what the editor answers afterwards does not
    matter. *)
Theorem waitUntilCursorUnmoving_returns_after_three_equal
    (oldpos : XY) (before : list (Z * Z)) (a b c : Z * Z)
    (Hab : coordChange a oldpos = coordChange b oldpos)
    (Hbc : coordChange b oldpos = coordChange c oldpos) :
  exists m,
    forall later,
      waitUntilCursorUnmoving (Some oldpos) (before ++ a :: b :: c :: later)
      = Some m.
Proof.
  cbn [waitUntilCursorUnmoving].
  destruct (unmoving_wait oldpos unmovingStart before) as [m|] eqn:E.
  - exists m. intro later. apply unmoving_wait_prefix. exact E.
  - assert (H0 : 0 <= stepsUnchanged (unmoving_after oldpos unmovingStart before)).
    { apply unmoving_after_steps. cbn. lia. }
    pose proof (unmoving_wait_three oldpos a b c []
                  (unmoving_after oldpos unmovingStart before) H0 Hab Hbc) as H3.
    destruct (unmoving_wait oldpos
                (unmoving_after oldpos unmovingStart before) [a; b; c])
      as [m|] eqn:E3; [|contradiction].
    exists m. intro later. rewrite (unmoving_wait_app _ _ _ _ E).
    apply (unmoving_wait_prefix oldpos [a; b; c] later m). exact E3.
Qed.

Lemma waitUntilCursorUnmoving_three_witness :
  exists m,
    forall later,
      waitUntilCursorUnmoving (Some {| pos_x := 1; pos_y := 1 |})
        ([(1, 1); (1, 4)] ++ (1, 5) :: (1, 5) :: (1, 5) :: later)
      = Some m.
Proof.
  exact (waitUntilCursorUnmoving_returns_after_three_equal
           {| pos_x := 1; pos_y := 1 |} [(1, 1); (1, 4)] (1, 5) (1, 5) (1, 5)
           eq_refl eq_refl).
Defined.

(** ** [prettifyPrefix] on chords *)

Lemma prettifyPrefix_steps (toUpperCase : jsstring -> jsstring) (str : jsstring) :
  prettifyPrefix toUpperCase str = applySteps glyphSteps (toUpperCase str).
Proof. reflexivity. Qed.

Lemma clash_None (tok : jsstring) :
  forall s rest, clash tok s = true -> stripPrefix_i tok (s ++ rest) = None.
Proof.
  induction tok as [|t tok IH]; intros s rest H.
  - destruct s; discriminate.
  - destruct s as [|c s]; [discriminate|]. cbn [clash] in H.
    cbn [app stripPrefix_i].
    destruct (asciiUpper c =? asciiUpper t)%N; [|reflexivity].
    apply IH. exact H.
Qed.

Lemma stepRegex_None (st : GlyphStep) (s : jsstring) :
  stripPrefix_i (s_token st) s = None -> stepRegex st s = None.
Proof.
  intro H. unfold stepRegex, modifierRegex, wordRegex.
  destruct (s_modifier st); rewrite H; reflexivity.
Qed.

(** A step leaves a beginning of the string as it is when its token clashes
    at every index of it. *)
Lemma applyStep_passes (st : GlyphStep) (p : jsstring) :
  passes (s_token st) p = true ->
  forall rest, applyStep (p ++ rest) st = p ++ applyStep rest st.
Proof.
  induction p as [|c p IH]; intros H rest; [reflexivity|].
  cbn [passes] in H. apply andb_true_iff in H. destruct H as [Hc Hp].
  unfold applyStep, String_replace in *. cbn [app replaceMatches].
  rewrite (stepRegex_None st (c :: p ++ rest)
             (clash_None _ (c :: p) rest Hc)).
  f_equal. apply IH. exact Hp.
Qed.

Lemma applySteps_passes (steps : list GlyphStep) (p : jsstring) :
  forallb (fun st => passes (s_token st) p) steps = true ->
  forall rest, applySteps steps (p ++ rest) = p ++ applySteps steps rest.
Proof.
  unfold applySteps.
  induction steps as [|st steps IH]; intros H rest; [reflexivity|].
  cbn [forallb] in H. apply andb_true_iff in H. destruct H as [Hst Hsteps].
  cbn [fold_left]. rewrite (applyStep_passes st p Hst). apply IH. exact Hsteps.
Qed.

Lemma applySteps_cons (st : GlyphStep) (steps : list GlyphStep)
    (str : jsstring) :
  applySteps (st :: steps) str = applySteps steps (applyStep str st).
Proof. reflexivity. Qed.

Lemma applySteps_app (a b : list GlyphStep) (str : jsstring) :
  applySteps (a ++ b) str = applySteps b (applySteps a str).
Proof. apply fold_left_app. Qed.

(** The step of a modifier replaces the token and its plus sign at the start
    of the string by the glyph. *)
Lemma modifier_leading (t0 : N) (tok' : jsstring) (g : N)
    (written rest : jsstring) :
  stripPrefix_i (t0 :: tok') written = Some [] ->
  String_replace (modifierRegex (t0 :: tok')) [g] (written ++ 43%N :: rest)
  = g :: String_replace (modifierRegex (t0 :: tok')) [g] rest.
Proof.
  intro H.
  destruct (stripPrefix_i_split _ _ _ H) as (Happ & _ & Hre & Hlen).
  rewrite app_nil_r in Happ. cbn [length] in Hlen.
  assert (Hw : firstn (length (t0 :: tok')) written = written)
    by (symmetry; exact Happ).
  assert (HX : modifierRegex (t0 :: tok') (written ++ 43%N :: rest)
               = Some (S (length (t0 :: tok')))).
  { unfold modifierRegex. rewrite <- Hw at 1. rewrite Hre. reflexivity. }
  rewrite (R_match t0 tok' g _ _ HX). f_equal. f_equal.
  change (S (length (t0 :: tok'))) with (1 + length (t0 :: tok'))%nat.
  rewrite <- skipn_skipn.
  rewrite <- Hw at 1.
  rewrite skipn_firstn_app; [reflexivity|].
  rewrite Hw. cbn [length]. lia.
Qed.

(** In a list of steps, a modifier written at the start of the string with
    its plus sign becomes its glyph when the steps before its own pass over
    it and the steps after pass over the glyph. *)
Lemma applySteps_leading (pre post : list GlyphStep) (t0 : N) (tok' : jsstring)
    (g : N) (written : jsstring) :
  forallb (fun st => passes (s_token st) (written ++ [43%N])) pre = true ->
  stripPrefix_i (t0 :: tok') written = Some [] ->
  forallb (fun st => passes (s_token st) [g]) post = true ->
  forall rest,
    applySteps
      (pre ++ {| s_token := t0 :: tok'; s_glyph := [g]; s_modifier := true |}
           :: post)
      (written ++ 43%N :: rest)
    = g :: applySteps
             (pre ++ {| s_token := t0 :: tok'; s_glyph := [g];
                        s_modifier := true |} :: post) rest.
Proof.
  intros Hpre Hw Hpost rest.
  set (mid := {| s_token := t0 :: tok'; s_glyph := [g]; s_modifier := true |}).
  rewrite !applySteps_app.
  assert (E1 : applySteps pre (written ++ 43%N :: rest)
               = written ++ 43%N :: applySteps pre rest).
  { change (written ++ 43%N :: rest) with (written ++ [43%N] ++ rest).
    rewrite app_assoc, (applySteps_passes pre _ Hpre), <- app_assoc.
    reflexivity. }
  rewrite E1, !applySteps_cons.
  assert (E2 : applyStep (written ++ 43%N :: applySteps pre rest) mid
               = g :: applyStep (applySteps pre rest) mid).
  { apply (modifier_leading t0 tok' g written _ Hw). }
  rewrite E2.
  apply (applySteps_passes post [g] Hpost).
Qed.

Lemma glyphSteps_leading (m : string * string) (rest : jsstring) :
  In m glyphTable ->
  applySteps glyphSteps (asciiToUpperCase (js (fst m)) ++ 43%N :: rest)
  = js (snd m) ++ applySteps glyphSteps rest.
Proof.
  intro H. unfold glyphTable in H. cbn [In] in H.
  destruct H as [<- | [<- | [<- | [<- | [<- | [<- | []]]]]]]; cbn [fst snd].
  - exact (applySteps_leading (firstn 1 glyphSteps) (skipn 2 glyphSteps)
             99 (js "trl") 94 (asciiToUpperCase (js "ctrl"))
             eq_refl eq_refl eq_refl rest).
  - exact (applySteps_leading [] (skipn 1 glyphSteps)
             115 (js "hift") 8679 (asciiToUpperCase (js "shift"))
             eq_refl eq_refl eq_refl rest).
  - exact (applySteps_leading (firstn 2 glyphSteps) (skipn 3 glyphSteps)
             97 (js "lt") 8997 (asciiToUpperCase (js "alt"))
             eq_refl eq_refl eq_refl rest).
  - exact (applySteps_leading (firstn 3 glyphSteps) (skipn 4 glyphSteps)
             109 (js "eta") 9670 (asciiToUpperCase (js "meta"))
             eq_refl eq_refl eq_refl rest).
  - exact (applySteps_leading (firstn 4 glyphSteps) (skipn 5 glyphSteps)
             119 (js "in") 8862 (asciiToUpperCase (js "win"))
             eq_refl eq_refl eq_refl rest).
  - exact (applySteps_leading (firstn 5 glyphSteps) (skipn 6 glyphSteps)
             99 (js "md") 8984 (asciiToUpperCase (js "cmd"))
             eq_refl eq_refl eq_refl rest).
Qed.

Lemma chordText_ascii (modifiers : list (string * string)) (k : jsstring) :
  Forall (fun m => In m glyphTable) modifiers ->
  forallb isAscii k = true ->
  forallb isAscii (chordText modifiers k) = true.
Proof.
  intros Hm Hk. induction Hm as [|m ms Hin _ IH]; [exact Hk|].
  cbn [chordText fold_right]. rewrite forallb_app. cbn [forallb].
  fold (chordText ms k). rewrite IH, andb_true_r.
  unfold glyphTable in Hin. cbn [In] in Hin.
  destruct Hin as [<- | [<- | [<- | [<- | [<- | [<- | []]]]]]]; reflexivity.
Qed.

Section Chords.

Variable toUpperCase : jsstring -> jsstring.

Hypothesis toUpperCase_ascii :
  forall s, forallb isAscii s = true -> toUpperCase s = asciiToUpperCase s.

(** X20. A chord written as modifiers of the glyph table, each followed by a
    plus sign, and then an ASCII key is rendered as the glyphs of the
    modifiers, in the order written, followed by the rendering of the
    key. *)
Theorem prettifyPrefix_chord (modifiers : list (string * string))
    (k : jsstring)
    (Hmods : Forall (fun m => In m glyphTable) modifiers)
    (Hkey : forallb isAscii k = true) :
  prettifyPrefix toUpperCase (chordText modifiers k)
  = concat (map (fun m => js (snd m)) modifiers) ++ prettifyPrefix toUpperCase k.
Proof.
  rewrite !prettifyPrefix_steps.
  rewrite (toUpperCase_ascii _ (chordText_ascii _ _ Hmods Hkey)).
  rewrite (toUpperCase_ascii _ Hkey).
  induction Hmods as [|m ms Hin _ IH]; [reflexivity|].
  cbn [chordText fold_right map concat]. fold (chordText ms k).
  unfold asciiToUpperCase. rewrite map_app. cbn [map].
  change (asciiUpper 43) with 43%N.
  fold (asciiToUpperCase (js (fst m))). fold (asciiToUpperCase (chordText ms k)).
  rewrite (glyphSteps_leading m _ Hin), IH, app_assoc. reflexivity.
Qed.

End Chords.

Lemma prettifyPrefix_chord_witness :
  prettifyPrefix asciiToUpperCase (js "ctrl+shift+alt+f1")
  = js "^⇧⌥" ++ prettifyPrefix asciiToUpperCase (js "f1").
Proof.
  exact (prettifyPrefix_chord asciiToUpperCase (fun s _ => eq_refl)
           [("ctrl", "^"); ("shift", "⇧"); ("alt", "⌥")]%string (js "f1")
           ltac:(repeat constructor; cbn; tauto) eq_refl).
Defined.

Lemma stripPrefix_i_short (tok : jsstring) :
  forall s, (length s < length tok)%nat -> stripPrefix_i tok s = None.
Proof.
  induction tok as [|t tok IH]; intros s H; [cbn in H; lia|].
  destruct s as [|c s]; [reflexivity|]. cbn [stripPrefix_i].
  destruct (asciiUpper c =? asciiUpper t)%N; [|reflexivity].
  apply IH. cbn in H. lia.
Qed.

Lemma applyStep_short (st : GlyphStep) :
  forall s, (length s < length (s_token st))%nat -> applyStep s st = s.
Proof.
  unfold applyStep, String_replace.
  induction s as [|c s IH]; intro H.
  - cbn [replaceMatches].
    rewrite (stepRegex_None st [] (stripPrefix_i_short _ _ H)). reflexivity.
  - cbn [replaceMatches].
    rewrite (stepRegex_None st (c :: s) (stripPrefix_i_short _ _ H)).
    f_equal. apply IH. cbn in H. lia.
Qed.

Lemma applySteps_short (steps : list GlyphStep) (s : jsstring) :
  Forall (fun st => (length s < length (s_token st))%nat) steps ->
  applySteps steps s = s.
Proof.
  induction 1 as [|st steps Hst _ IH]; [reflexivity|].
  rewrite applySteps_cons, (applyStep_short st s Hst). exact IH.
Qed.

Lemma glyphSteps_tokens :
  Forall (fun st => (3 <= length (s_token st))%nat) glyphSteps.
Proof. repeat constructor; vm_compute; lia. Qed.

(** X21. A prefix whose upper-case form has fewer than three code units is
    only upper-cased: no token of [prettifyPrefix] is that short. *)
Theorem prettifyPrefix_short (toUpperCase : jsstring -> jsstring)
    (str : jsstring)
    (Hshort : (length (toUpperCase str) < 3)%nat) :
  prettifyPrefix toUpperCase str = toUpperCase str.
Proof.
  rewrite prettifyPrefix_steps. apply applySteps_short.
  apply (Forall_impl _ (P := fun st => (3 <= length (s_token st))%nat));
    [|exact glyphSteps_tokens].
  intros st H. lia.
Qed.

Lemma prettifyPrefix_short_witness :
  prettifyPrefix asciiToUpperCase (js "f1") = js "F1".
Proof.
  exact (prettifyPrefix_short asciiToUpperCase (js "f1")
           ltac:(vm_compute; lia)).
Defined.

Lemma stepRegex_bounds (st : GlyphStep) (s : jsstring) (len : nat) :
  stepRegex st s = Some len ->
  (length (s_token st) <= len <= length s)%nat.
Proof.
  unfold stepRegex.
  destruct (s_modifier st); unfold modifierRegex, wordRegex;
    (destruct (stripPrefix_i (s_token st) s) as [rest|] eqn:E;
     [|discriminate]);
    destruct (stripPrefix_i_split _ _ _ E) as (_ & _ & _ & Hlen).
  - destruct rest as [|c rest].
    + intro H. inversion H. cbn in Hlen. lia.
    + destruct (c =? 43)%N; [|discriminate]. intro H. inversion H.
      cbn in Hlen. lia.
  - intro H. inversion H. lia.
Qed.

Lemma replaceMatches_length (X : jsstring -> option nat) (g : jsstring) :
  (forall s len, X s = Some len -> (length g <= len <= length s)%nat) ->
  forall s k, (length (replaceMatches X g k s) <= length s - k)%nat.
Proof.
  intros HX. induction s as [|c s IH]; intro k.
  - cbn [replaceMatches]. destruct k; [|cbn; lia].
    destruct (X []) as [len|] eqn:E; [|cbn; lia].
    apply HX in E. cbn in *. lia.
  - cbn [replaceMatches]. destruct k as [|k]; [|cbn; apply IH].
    destruct (X (c :: s)) as [[|j]|] eqn:E.
    + apply HX in E. destruct g; [|cbn in E; lia].
      cbn. pose proof (IH O). lia.
    + apply HX in E. rewrite length_app. pose proof (IH j). cbn in *. lia.
    + cbn. pose proof (IH O). lia.
Qed.

(** X22. [prettifyPrefix] never gives a string longer than the upper-case
    form of the prefix: every glyph is at most as long as what it
    replaces. *)
Theorem prettifyPrefix_not_longer (toUpperCase : jsstring -> jsstring)
    (str : jsstring) :
  (length (prettifyPrefix toUpperCase str) <= length (toUpperCase str))%nat.
Proof.
  rewrite prettifyPrefix_steps. generalize (toUpperCase str). intro s.
  assert (Hstep : forall st s0,
            (length (s_glyph st) <= length (s_token st))%nat ->
            (length (applyStep s0 st) <= length s0)%nat).
  { intros st s0 Hg. unfold applyStep, String_replace.
    pose proof (replaceMatches_length (stepRegex st) (s_glyph st)) as H.
    specialize (H (fun s1 len E =>
                     let B := stepRegex_bounds st s1 len E in
                     conj (Nat.le_trans _ _ _ Hg (proj1 B)) (proj2 B)) s0 O).
    lia. }
  assert (Hall : Forall (fun st => (length (s_glyph st) <= length (s_token st))%nat)
                   glyphSteps)
    by (repeat constructor; cbn; lia).
  unfold applySteps. revert s.
  induction Hall as [|st steps Hst _ IH]; intro s; [cbn; lia|].
  cbn [fold_left]. specialize (IH (applyStep s st)).
  pose proof (Hstep st s Hst). lia.
Qed.

(** ** More on the status bar module *)

(** X23. A status update never makes a pending status clear stale: the
    timers that were pending are still pending at the same places, and one
    whose captured generation was the current one still has the current
    one, whatever the update shows. *)
Theorem status_update_keeps_pending_clears_current
    (toString : Z -> jsstring)
    (prettify : jsstring -> jsstring) (TESTING : bool)
    (w : World) (values : Values) (i : nat) (t : Timeout)
    (Hpending : nth_error (timeouts w) i = Some t)
    (Hcurrent : currentUpdate t = statusUpdates w) :
  let w' := step toString prettify TESTING w (StateSet values) in
  nth_error (timeouts w') i = Some t
  /\ currentUpdate t = statusUpdates w'
  /\ statusUpdates (fireTimeout i w') <> statusUpdates w'.
Proof.
  cbv zeta. cbn [step].
  assert (Hn : statusUpdates
                 (snd (updateKeyStatus toString prettify values
                         (set_state values w)))
               = statusUpdates w).
  { destruct (updateKeyStatus_keeps toString prettify values
                (set_state values w))
      as (_ & H & _). exact H. }
  assert (Ht : nth_error
                 (timeouts
                    (snd (updateKeyStatus toString prettify values
                            (set_state values w)))) i = Some t).
  { destruct (updateKeyStatus_cases toString prettify values
                (set_state values w))
      as [H | [[bar H] | H]]; rewrite H; cbn [timeouts set_keyStatusBar
                                                set_timeouts set_state];
      try exact Hpending.
    rewrite nth_error_app1; [exact Hpending|].
    apply nth_error_Some. rewrite Hpending. discriminate. }
  split; [exact Ht|]. split; [rewrite Hn; exact Hcurrent|].
  unfold fireTimeout. rewrite Ht.
  remember (snd (updateKeyStatus toString prettify values (set_state values w)))
    as w2 eqn:Hw2.
  exact (clearCallback_moves_counter t
           (set_timeouts (firstn i (timeouts w2) ++ skipn (S i) (timeouts w2))
              w2)
           (eq_trans Hcurrent (eq_sym Hn))).
Qed.

Lemma status_update_keeps_pending_witness :
  let w := run decimal glyphs false (loaded false noStore)
             [Activate; StateSet emptyValues] in
  let w' := step decimal glyphs false w
              (StateSet {| COUNT := Some 3; PREFIX := Some (js "ctrl+x") |}) in
  statusUpdates (fireTimeout 0 w') <> statusUpdates w'.
Proof.
  intros w w'.
  exact (proj2 (proj2
    (status_update_keeps_pending_clears_current decimal glyphs false w
       {| COUNT := Some 3; PREFIX := Some (js "ctrl+x") |} 0
       {| currentUpdate := MIN_SAFE_INTEGER; t_plannedUpdate := [];
          ms := 500 |} eq_refl eq_refl))).
Defined.

(** X24. At activation the configured delay is read only outside testing:
    in a testing environment the delay after activation is 100 whatever the
    store holds; outside, it is the configured value, or 500 when that is 0
    or not set. In both cases the status bar starts with an empty text and
    the label 'No Keys Typed'. *)
Theorem activation_reads_the_delay_only_outside_testing
    (store : Configuration) :
  keyDisplayDelay (activate true (loaded true store)) = 100
  /\ keyDisplayDelay (activate false (loaded false store))
     = match store "master-key"%string "keyDisplayDelay"%string with
       | Some v => if v =? 0 then 500 else v
       | None => 500
       end
  /\ forall TESTING,
       keyStatusBar (activate TESTING (loaded TESTING store))
       = Some {| text := []; accessibilityInformation := js "No Keys Typed" |}.
Proof.
  split; [reflexivity|]. split; [reflexivity|].
  intros [|]; reflexivity.
Qed.

(** ** [movesCursorInEditor] *)

(** X25. When the check of [movesCursorInEditor] passes, the editor has
    shown the expected move: either right after the action, or on the last
    two answers polled while waiting for the cursor to settle. It times out
    only if the first answer did not show the expected move. *)
Theorem movesCursorInEditor_passes_on_a_seen_move
    (oldpos : XY) (by_ first : Z * Z) (coordinates : list (Z * Z)) :
  let expected := {| pos_y := fst by_; pos_x := snd by_ |} in
  (movesCursorInEditor oldpos by_ first coordinates = Some true ->
   coordChange first oldpos = expected
   \/ exists polled rest a b,
        coordinates = polled ++ a :: b :: rest
        /\ coordChange a oldpos = expected
        /\ coordChange b oldpos = expected)
  /\ (movesCursorInEditor oldpos by_ first coordinates = None ->
      coordChange first oldpos <> expected).
Proof.
  cbv zeta. unfold movesCursorInEditor.
  destruct (XY_isEqual (coordChange first oldpos)
              {| pos_y := fst by_; pos_x := snd by_ |}) eqn:E.
  - apply XY_isEqual_eq in E. split; [intros _; left; exact E | discriminate].
  - split.
    + cbn [waitUntilCursorUnmoving].
      destruct (unmoving_wait oldpos unmovingStart coordinates) as [m|] eqn:W;
        [|discriminate].
      intro H. inversion H as [Hm]. apply XY_isEqual_eq in Hm. subst m.
      right.
      destruct (unmoving_wait_sound oldpos coordinates unmovingStart [] _
                  (remembers_start oldpos) W)
        as (polled & rest & Hc & (before & shown & Hs & Hl & Hf) & _).
      cbn [app] in Hs.
      destruct shown as [|a [|b [|c shown]]]; try discriminate.
      exists before, rest, a, b.
      split; [rewrite Hc, Hs, <- app_assoc; reflexivity|].
      inversion Hf as [|? ? Ha Hf']. inversion Hf' as [|? ? Hb _].
      split; assumption.
    + intros _ H. apply XY_isEqual_eq in H. congruence.
Qed.

Lemma movesCursorInEditor_witness :
  movesCursorInEditor {| pos_x := 1; pos_y := 1 |} (0, 4) (1, 4)
    [(1, 4); (1, 5); (1, 5); (1, 5)] = Some true
  /\ exists polled rest a b,
       [(1, 4); (1, 5); (1, 5); (1, 5)] = polled ++ a :: b :: rest
       /\ coordChange a {| pos_x := 1; pos_y := 1 |}
          = {| pos_y := 0; pos_x := 4 |}
       /\ coordChange b {| pos_x := 1; pos_y := 1 |}
          = {| pos_y := 0; pos_x := 4 |}.
Proof.
  split; [reflexivity|].
  destruct (proj1 (movesCursorInEditor_passes_on_a_seen_move
                     {| pos_x := 1; pos_y := 1 |} (0, 4) (1, 4)
                     [(1, 4); (1, 5); (1, 5); (1, 5)]) eq_refl) as [H | H];
    [discriminate H | exact H].
Defined.
